(** * Critical-difference diagrams of jMetalPy: a shallow embedding

    This development embeds [jmetal/component/critical_distance.py]
    (functions [NemenyiCD], [ranks], [CDplot] and its local helper
    [_join_alg]) and checks the properties that the specification states
    about them.

    Numbers.  Scores, ranks and coordinates are [float64] values in the
    source; the embedding uses the rationals [Q] with exact arithmetic, and
    equality of numbers is [Qeq].  The two external numeric routines that
    have no rational counterpart, the Studentized-range table
    [get_tukeyQcrit] (statsmodels) and [np.sqrt], are parameters of the
    functions that call them.  Division by zero keeps the behaviour of the
    source: Python's float division raises, numpy's yields [inf] or [nan]. *)

From Stdlib Require Import String QArith ZArith List Lia Bool.
From Stdlib Require Import Permutation Sorted Qround Lqa.
Import ListNotations.
Open Scope Q_scope.

(** ** Exceptions and the error monad *)

Inductive error : Type :=
| PyException (msg : string)   (* [raise Exception(msg)] of [CDplot] *)
| IndexError                   (* index out of bounds, too many indices *)
| ValueError                   (* numpy shape and reduction errors *)
| ZeroDivisionError            (* Python float division by zero *)
| LookupFailure.               (* raised inside the table collaborator *)

Inductive result (A : Type) : Type :=
| Ok (a : A)
| Err (e : error).
Arguments Ok {A} a.
Arguments Err {A} e.

Definition bind {A B : Type} (r : result A) (k : A -> result B) : result B :=
  match r with
  | Ok a => k a
  | Err e => Err e
  end.

Notation "x <- c ;; k" := (bind c (fun x => k))
  (at level 61, c at next level, right associativity).

(** ** The numpy operations used by the source *)

Definition Qlt_bool (x y : Q) : bool := negb (Qle_bool y x).

Definition of_nat (n : nat) : Q := inject_Z (Z.of_nat n).

(** [np.sort]: ascending order. *)
Fixpoint insert_sorted (x : Q) (l : list Q) : list Q :=
  match l with
  | [] => [x]
  | y :: t => if Qle_bool x y then x :: l else y :: insert_sorted x t
  end.

Definition np_sort (l : list Q) : list Q := fold_right insert_sorted [] l.

(** The values of a sorted array without repetition: an element is kept
    when it differs from its predecessor. *)
Fixpoint uniq_from (x : Q) (l : list Q) : list Q :=
  match l with
  | [] => []
  | y :: t => if Qeq_bool x y then uniq_from x t else y :: uniq_from y t
  end.

Definition uniq (l : list Q) : list Q :=
  match l with
  | [] => []
  | x :: t => x :: uniq_from x t
  end.

(** Position of the first occurrence of [v] in [ar]. *)
Fixpoint first_index (v : Q) (ar : list Q) : nat :=
  match ar with
  | [] => 0%nat
  | y :: t => if Qeq_bool y v then 0%nat else S (first_index v t)
  end.

Definition occurrences (v : Q) (ar : list Q) : nat :=
  length (filter (fun y => Qeq_bool y v) ar).

(** [np.unique(ar, return_index=True, return_counts=True)]: the sorted
    distinct values, for each the index of its first occurrence in [ar],
    and the number of times it occurs. *)
Definition np_unique (ar : list Q) : list Q * list nat * list nat :=
  let values := uniq (np_sort ar) in
  (values,
   map (fun v => first_index v ar) values,
   map (fun v => occurrences v ar) values).

(** Boolean-mask indexing [a[mask]]. *)
Fixpoint mask_select {A : Type} (mask : list bool) (a : list A) : list A :=
  match mask, a with
  | b :: m, x :: t => if b then x :: mask_select m t else mask_select m t
  | _, _ => []
  end.

Fixpoint map2 {A B C : Type} (f : A -> B -> C) (l : list A) (l' : list B)
  : list C :=
  match l, l' with
  | x :: t, y :: t' => f x y :: map2 f t t'
  | _, _ => []
  end.

(** ** Two-dimensional arrays *)

Definition matrix : Type := list (list Q).

(** A 2-D array of shape [(length rows, n_cols)]. *)
Record ndarray2 : Type := mk_ndarray2 {
  arr_rows : matrix;
  n_cols : nat
}.

Definition has_shape (M : matrix) (k n : nat) : Prop :=
  length M = k /\ Forall (fun r => length r = n) M.

Definition wf_array (a : ndarray2) : Prop :=
  has_shape (arr_rows a) (length (arr_rows a)) (n_cols a).

Definition shape (a : ndarray2) : nat * nat :=
  (length (arr_rows a), n_cols a).

Definition np_ones (k n : nat) : matrix := repeat (repeat 1 n) k.

(** [M[:, j]] *)
Definition column (M : matrix) (j : nat) : list Q :=
  map (fun r => nth j r 0) M.

(** [M[i, j]] read; numpy raises [IndexError] out of bounds. *)
Definition get_cell (M : matrix) (i j : nat) : result Q :=
  match nth_error M i with
  | Some r =>
      match nth_error r j with
      | Some x => Ok x
      | None => Err IndexError
      end
  | None => Err IndexError
  end.

Fixpoint list_set {A : Type} (l : list A) (i : nat) (v : A) : list A :=
  match l, i with
  | [], _ => []
  | _ :: t, O => v :: t
  | x :: t, S i' => x :: list_set t i' v
  end.

(** [M[i, j] = v], on indices already read with [get_cell]. *)
Definition set_cell (M : matrix) (i j : nat) (v : Q) : matrix :=
  list_set M i (list_set (nth i M []) j v).

(** ** [ranks] *)

(** The array [indices[values == x] + 0.5 * (rep[values == x] - 1)]. *)
Definition rank_increment (values : list Q) (indices rep : list nat) (x : Q)
  : list Q :=
  let mask := map (fun v => Qeq_bool v x) values in
  map2 (fun idx r => of_nat idx + (1 # 2) * (of_nat r - 1))
       (mask_select mask indices) (mask_select mask rep).

(** Body of the inner loop: [ranks[i, j] += ...].  Storing an array in one
    cell succeeds only for an array of size one. *)
Definition ranks_cell (data : matrix) (values : list Q) (indices rep : list nat)
  (j : nat) (acc : result matrix) (i : nat) : result matrix :=
  R <- acc ;;
  x <- get_cell data i j ;;
  r <- get_cell R i j ;;
  match rank_increment values indices rep x with
  | [d] => Ok (set_cell R i j (r + d))
  | _ => Err ValueError
  end.

(** [(-1) * np.sort(-col)]: the column in descending order. *)
Definition descending (col : list Q) : list Q :=
  map (Qmult (-1)) (np_sort (map Qopp col)).

(** Body of the outer loop, for dataset [j]. *)
Definition ranks_column (data : matrix) (k : nat) (acc : result matrix)
  (j : nat) : result matrix :=
  R <- acc ;;
  let '(values, indices, rep) :=
    np_unique (descending (column data j)) in
  fold_left (ranks_cell data values indices rep j) (seq 0 k) (Ok R).

Definition ranks (data : ndarray2) : result matrix :=
  let '(k, n_samples) := shape data in
  fold_left (ranks_column (arr_rows data) k) (seq 0 n_samples)
            (Ok (np_ones k n_samples)).

(** ** The mid-rank of the specification *)

Definition count_gt (col : list Q) (x : Q) : nat :=
  length (filter (fun y => Qlt_bool x y) col).

Definition count_eq (col : list Q) (x : Q) : nat :=
  length (filter (fun y => Qeq_bool y x) col).

Definition midrank (col : list Q) (x : Q) : Q :=
  1 + of_nat (count_gt col x) + (1 # 2) * (of_nat (count_eq col x) - 1).

Definition cell (M : matrix) (i j : nat) : Q := nth j (nth i M []) 0.

(** A column without ties: each of its entries occurs once in it. *)
Definition no_tie (col : list Q) : Prop :=
  Forall (fun x => count_eq col x = 1%nat) col.

(** What the loop body adds to the initial [1] of a cell. *)
Definition rank_delta (col : list Q) (x : Q) : Q :=
  of_nat (count_gt col x) + (1 # 2) * (of_nat (count_eq col x) - 1).

Definition scenario_A : ndarray2 :=
  mk_ndarray2 [[1; 2; 3]; [2; 3; 1]; [3; 1; 2]] 3.

Definition tie_example : ndarray2 :=
  mk_ndarray2 [[5; 1]; [5; 2]; [3; 2]; [7; 2]] 2.


(** ** [_join_alg], the clique grouper local to [CDplot] *)

(** [np.where(mask)[0]]: the positions where the mask holds, ascending. *)
Fixpoint np_where_from (start : nat) (mask : list bool) : list nat :=
  match mask with
  | [] => []
  | b :: m =>
      if b then start :: np_where_from (S start) m
      else np_where_from (S start) m
  end.

Definition np_where (mask : list bool) : list nat := np_where_from 0 mask.

(** [a[i]] on a 1-D array. *)
Definition index {A : Type} (a : list A) (i : nat) : result A :=
  match nth_error a i with
  | Some x => Ok x
  | None => Err IndexError
  end.

(** A row [[low, high]] of a two-column array. *)
Abbreviation pair_row := (Q * Q)%type (only parsing).

(** The result [group]: the 1-D array [sets[0, :]] as long as nothing has
    been stacked on it, a 2-D array afterwards. *)
Inductive group_array : Type :=
| Group1 (r : pair_row)
| Group2 (rows : list pair_row).

(** [np.vstack((group, row))] *)
Definition np_vstack (group : group_array) (row : pair_row) : group_array :=
  match group with
  | Group1 r => Group2 [r; row]
  | Group2 rows => Group2 (rows ++ [row])
  end.

Definition group_rows (group : group_array) : list pair_row :=
  match group with
  | Group1 r => [r]
  | Group2 rows => rows
  end.

(** Body of the first loop ("get all pairs"). *)
Definition pairs_step (avranks : list Q) (cd : Q)
  (acc : result (list pair_row)) (i : nat) : result (list pair_row) :=
  sets <- acc ;;
  a_i <- index avranks i ;;
  let elements :=
    np_where (map (fun a => Qlt_bool 0 (a - a_i) && Qlt_bool (a - a_i) cd)
                  avranks) in
  match elements with
  | [] => Ok sets
  | _ :: _ => Ok (list_set sets i (a_i, nth (last elements 0%nat) avranks 0))
  end.

(** The array [sets] after [np.delete]: rows still holding the initial
    [-1] in their first column are removed. *)
Definition candidate_pairs (avranks : list Q) (num_alg : nat) (cd : Q)
  : result (list pair_row) :=
  sets <- fold_left (pairs_step avranks cd) (seq 0 num_alg)
            (Ok (repeat (-1, -1) num_alg)) ;;
  Ok (filter (fun r => negb (Qlt_bool (fst r) 0)) sets).

(** Body of the second loop ("group pairs"). *)
Definition group_step (sets : list pair_row) (group : group_array) (i : nat)
  : group_array :=
  if Qlt_bool (snd (nth (i - 1) sets (0, 0))) (snd (nth i sets (0, 0)))
  then np_vstack group (nth i sets (0, 0))
  else group.

Definition group_pairs (sets : list pair_row) : result group_array :=
  first <- index sets 0 ;;
  Ok (fold_left (group_step sets) (seq 1 (length sets - 1)) (Group1 first)).

Definition _join_alg (avranks : list Q) (num_alg : nat) (cd : Q)
  : result group_array :=
  sets <- candidate_pairs avranks num_alg cd ;;
  group_pairs sets.

(** ** The clique grouper of the specification *)

(** [0 < averageRanks[j] - averageRanks[i] < cd] *)
Definition eligible (avranks : list Q) (cd : Q) (i j : nat) : bool :=
  Qlt_bool 0 (nth j avranks 0 - nth i avranks 0) &&
  Qlt_bool (nth j avranks 0 - nth i avranks 0) cd.

(** The farthest eligible partner of [i], by sorted index. *)
Definition farthest_partner (avranks : list Q) (cd : Q) (i : nat)
  : option nat :=
  find (eligible avranks cd i) (rev (seq 0 (length avranks))).

Definition candidate (avranks : list Q) (cd : Q) (i : nat) : option pair_row :=
  match farthest_partner avranks cd i with
  | Some j => Some (nth i avranks 0, nth j avranks 0)
  | None => None
  end.

Fixpoint collect {A : Type} (f : nat -> option A) (l : list nat) : list A :=
  match l with
  | [] => []
  | i :: t =>
      match f i with
      | Some c => c :: collect f t
      | None => collect f t
      end
  end.

(** The candidates in increasing anchor order, anchors without partner
    left out. *)
Definition candidates (avranks : list Q) (cd : Q) : list pair_row :=
  collect (candidate avranks cd) (seq 0 (length avranks)).

(** A candidate is kept when its high endpoint exceeds that of the
    candidate kept last. *)
Fixpoint merge_from (kept : pair_row) (cs : list pair_row) : list pair_row :=
  match cs with
  | [] => []
  | c :: t =>
      if Qlt_bool (snd kept) (snd c) then c :: merge_from c t
      else merge_from kept t
  end.

Definition merge_cliques (cs : list pair_row) : list pair_row :=
  match cs with
  | [] => []
  | c :: t => c :: merge_from c t
  end.

(** Candidates ordered by their high endpoint. *)
Definition high_le (c c' : pair_row) : Prop := snd c <= snd c'.

(** Row [i] of [sets] when the first loop is over. *)
Definition row_of (avranks : list Q) (cd : Q) (i : nat) : pair_row :=
  match candidate avranks cd i with
  | Some c => c
  | None => (-1, -1)
  end.

(** The comparison the loop makes: with the preceding candidate. *)
Fixpoint chain (prev : pair_row) (cs : list pair_row) : list pair_row :=
  match cs with
  | [] => []
  | c :: t =>
      if Qlt_bool (snd prev) (snd c) then c :: chain c t else chain c t
  end.

(** ** Scalars: rounding, casts and the two kinds of division *)

(** [x.astype(np.uint8)]: the value modulo 256. *)
Definition astype_uint8 (z : Z) : Z := (z mod 256)%Z.

(** [np.round]: to the nearest integer, halves to the even neighbour. *)
Definition np_round (x : Q) : Z :=
  let f := Qfloor x in
  let r := x - inject_Z f in
  if Qlt_bool r (1 # 2) then f
  else if Qlt_bool (1 # 2) r then (f + 1)%Z
  else if Z.even f then f else (f + 1)%Z.

(** Division of Python floats: a zero divisor raises. *)
Definition py_div (x y : Q) : result Q :=
  if Qeq_bool y 0 then Err ZeroDivisionError else Ok (x / y).

(** A [float64] that may have left the rationals. *)
Inductive npfloat : Type :=
| Finite (q : Q)
| PosInf
| NegInf
| NaN.

(** Division of a float by a numpy integer: a zero divisor yields an
    infinity or [nan] (and a warning), it does not raise. *)
Definition np_true_divide (num : Q) (den : Z) : npfloat :=
  if (den =? 0)%Z then
    if Qlt_bool 0 num then PosInf
    else if Qlt_bool num 0 then NegInf
    else NaN
  else Finite (num / inject_Z den).

Definition np_add (c : Q) (x : npfloat) : npfloat :=
  match x with
  | Finite q => Finite (c + q)
  | PosInf => PosInf
  | NegInf => NegInf
  | NaN => NaN
  end.

(** ** Reductions and sorting of 1-D arrays *)

Definition Qsum (l : list Q) : Q := fold_right Qplus 0 l.

(** [np.mean(M, axis=1)] *)
Definition np_mean_rows (M : matrix) : list Q :=
  map (fun r => Qsum r / of_nat (length r)) M.

Definition q_max (x y : Q) : Q := if Qle_bool x y then y else x.
Definition q_min (x y : Q) : Q := if Qle_bool x y then x else y.

(** [np.max] and [np.min] raise on an empty array. *)
Definition np_max (l : list Q) : result Q :=
  match l with
  | [] => Err ValueError
  | x :: t => Ok (fold_left q_max t x)
  end.

Definition np_min (l : list Q) : result Q :=
  match l with
  | [] => Err ValueError
  | x :: t => Ok (fold_left q_min t x)
  end.

Fixpoint insert_by_key (p : Q * nat) (l : list (Q * nat)) : list (Q * nat) :=
  match l with
  | [] => [p]
  | q :: t =>
      if Qle_bool (fst p) (fst q) then p :: l else q :: insert_by_key p t
  end.

(** [np.argsort]: the positions in ascending order of the values; equal
    values keep their order. *)
Definition np_argsort (a : list Q) : list nat :=
  map snd (fold_right insert_by_key [] (combine a (seq 0 (length a)))).

(** [a[indices]] for an integer index array. *)
Fixpoint take {A : Type} (a : list A) (indices : list nat) : result (list A) :=
  match indices with
  | [] => Ok []
  | i :: t =>
      x <- index a i ;;
      rest <- take a t ;;
      Ok (x :: rest)
  end.

(** ** [NemenyiCD] *)

Section Collaborators.

(** [get_tukeyQcrit(k, df, alpha)] of statsmodels; it may raise. *)
Variable get_tukeyQcrit : Z -> Z -> Q -> result Q.

(** [np.sqrt] on floats. *)
Variable np_sqrt : Q -> Q.

Definition NemenyiCD (alpha : Q) (num_alg num_dataset : Z) : result Q :=
  q <- get_tukeyQcrit num_alg (num_alg * (num_dataset - 1))%Z alpha ;;
  let q_alpha := q / np_sqrt 2 in
  ratio <- py_div (inject_Z (num_alg * (num_alg + 1)))
                  (6 * inject_Z num_dataset) ;;
  Ok (q_alpha * np_sqrt ratio).

End Collaborators.

(** ** The figure: what [CDplot] draws *)

Inductive label : Type :=
| TickLabel (z : Z)          (* [str(lowest + xi)] *)
| NameLabel (s : string)     (* an entry of the given [alg_names] *)
| Placeholder (n : nat)      (* the synthesized name [$m_{n}$] *)
| CDLabel (cd : Q).          (* ['CD=%.3f' % cd] *)

(** The calls made on the figure and its axes, in order; colours and line
    widths are left out. *)
Inductive artist : Type :=
| Figure (width height : Q)
| Hlines (y : Q) (xmin xmax : npfloat)
| Vlines (x : npfloat) (ymin ymax : Q)
| Text (x : npfloat) (y : Q) (s : label).

(** A computation that draws and may raise: the artists drawn so far are
    kept when it fails. *)
Definition plot (A : Type) : Type := (list artist * result A)%type.

Definition plot_bind {A B : Type} (m : plot A) (k : A -> plot B) : plot B :=
  match snd m with
  | Ok a => (fst m ++ fst (k a), snd (k a))
  | Err e => (fst m, Err e)
  end.

Notation "x <~ c ;; k" := (plot_bind c (fun x => k))
  (at level 61, c at next level, right associativity).

Definition draw (a : artist) : plot unit := ([a], Ok tt).

Definition lift {A : Type} (r : result A) : plot A := ([], r).

Fixpoint for_each {A : Type} (l : list A) (body : A -> plot unit) : plot unit :=
  match l with
  | [] => ([], Ok tt)
  | x :: t => _ <~ body x ;; for_each t body
  end.

(** The arguments [results] may hold once converted by [np.asarray]. *)
Inductive ndarray : Type :=
| Nd0 (x : Q)
| Nd1 (a : list Q)
| Nd2 (a : ndarray2)
| NdHigher (extra : nat).

Definition ndim (results : ndarray) : nat :=
  match results with
  | Nd0 _ => 0
  | Nd1 _ => 1
  | Nd2 _ => 2
  | NdHigher extra => 3 + extra
  end.

Definition supported_alpha (alpha : Q) : bool :=
  Qeq_bool alpha (1 # 100) || Qeq_bool alpha (5 # 100).

Definition alpha_message : string :=
  "Initialization ERROR: In CDplot(...) alpha must be 0.01 0 or 0.05".

Definition ndim_message : string :=
  "Initialization ERROR: In CDplot(...) results must be 2-D array".

Definition stop : Q := 65 # 100.
Definition sbottom : Q := 1 # 10.
Definition sleft : Q := 15 # 100.
Definition sright : Q := 85 # 100.
Definition lline : Q := sright - sleft.

(** [np.round(num_alg / 2.0).astype(np.uint8)] *)
Definition split_point (num_alg : nat) : Z :=
  astype_uint8 (np_round (of_nat num_alg / 2)).

(** [avranks[:spoint]] and [avranks[spoint:]] *)
Definition split_algorithms (num_alg : nat) (avranks : list Q)
  : list Q * list Q :=
  let spoint := Z.to_nat (split_point num_alg) in
  (firstn spoint avranks, skipn spoint avranks).

(** [np.argsort(avranks).astype(np.uint8)] *)
Definition sort_indices (avranks : list Q) : list nat :=
  map (fun i => Z.to_nat (astype_uint8 (Z.of_nat i))) (np_argsort avranks).

(** [np.ceil(np.max(avranks)).astype(np.uint8)] *)
Definition highest_rank (avranks : list Q) : result Z :=
  m <- np_max avranks ;;
  Ok (astype_uint8 (Qceiling m)).

(** [np.floor(np.min(avranks)).astype(np.uint8)] *)
Definition lowest_rank (avranks : list Q) : result Z :=
  m <- np_min avranks ;;
  Ok (astype_uint8 (Qfloor m)).

(** The horizontal position [sleft + num / (highest - lowest)]; the
    difference of the two [uint8] bounds is again a [uint8]. *)
Definition x_position (highest lowest : Z) (num : Q) : npfloat :=
  np_add sleft (np_true_divide num (astype_uint8 (highest - lowest))).

Section Plot.

Variable get_tukeyQcrit : Z -> Z -> Q -> result Q.
Variable np_sqrt : Q -> Q.

(** The main axis with its ticks. *)
Definition draw_axis (highest lowest : Z) : plot unit :=
  let span := astype_uint8 (highest - lowest) in
  _ <~ draw (Hlines stop (Finite sleft) (Finite sright)) ;;
  for_each (seq 0 (Z.to_nat (span + 1))) (fun xi =>
    _ <~ draw (Vlines (x_position highest lowest (lline * of_nat xi))
                      stop (stop + (5 # 100))) ;;
    _ <~ draw (Text (x_position highest lowest (lline * of_nat xi))
                    (stop + (6 # 100))
                    (TickLabel (lowest + Z.of_nat xi))) ;;
    if (Z.of_nat xi <? span)%Z then
      draw (Vlines (x_position highest lowest
                      (lline * (of_nat xi + (1 # 2))))
                   stop (stop + (25 # 1000)))
    else ([], Ok tt)).

(** Lines and names of the left models. *)
Definition draw_left (highest lowest : Z) (spoint : nat)
  (leftalg : list Q) (alg_names : list label) (indices : list nat)
  : plot unit :=
  let vspace := (1 # 2) * (stop - sbottom) / (of_nat spoint + 1) in
  for_each (seq 0 spoint) (fun i =>
    a <~ lift (index leftalg i) ;;
    let x := x_position highest lowest (lline * (a - inject_Z lowest)) in
    let y := sbottom + (of_nat spoint - 1 - of_nat i) * vspace in
    _ <~ draw (Vlines x y stop) ;;
    _ <~ draw (Hlines y (Finite sleft) x) ;;
    sorted_names <~ lift (take alg_names indices) ;;
    name <~ lift (index sorted_names i) ;;
    draw (Text (Finite (sleft - (1 # 100))) y name)).

(** Lines and names of the right models. *)
Definition draw_right (highest lowest : Z) (num_alg spoint : nat)
  (rightalg : list Q) (alg_names : list label) (indices : list nat)
  : plot unit :=
  let vspace :=
    (1 # 2) * (stop - sbottom) / (of_nat (num_alg - spoint) + 1) in
  for_each (seq 0 (num_alg - spoint)) (fun i =>
    a <~ lift (index rightalg i) ;;
    let x := x_position highest lowest (lline * (a - inject_Z lowest)) in
    let y := sbottom + of_nat i * vspace in
    _ <~ draw (Vlines x y stop) ;;
    _ <~ draw (Hlines y x (Finite sright)) ;;
    sorted_names <~ lift (take alg_names indices) ;;
    name <~ lift (index sorted_names (spoint + i)) ;;
    draw (Text (Finite (sright + (1 # 100))) y name)).

(** The critical-difference rule above the axis. *)
Definition draw_cd (highest lowest : Z) (cd : Q) : plot unit :=
  _ <~ draw (Hlines (stop + (2 # 10)) (Finite sleft)
                    (x_position highest lowest (cd * lline))) ;;
  draw (Text (x_position highest lowest ((1 # 2) * (cd * lline)))
             (stop + (21 # 100)) (CDLabel cd)).

Definition draw_lines (highest lowest : Z) (vspace : Q)
  (lines : list (Q * Q)) : plot unit :=
  for_each (combine (seq 0 (length lines)) lines) (fun '(i, (lo, hi)) =>
    draw (Hlines (stop - (of_nat i + 1) * vspace)
            (x_position highest lowest
               (lline * (lo - inject_Z lowest - (25 # 1000))))
            (x_position highest lowest
               (lline * (hi - inject_Z lowest + (25 # 1000)))))).

(** The brackets of the non-significant groups.  A 1-D [nonsig] cannot
    be sliced with two indices. *)
Definition draw_cliques (highest lowest : Z) (nonsig : group_array)
  : plot unit :=
  match nonsig with
  | Group1 _ => lift (Err IndexError)
  | Group2 rows =>
      let half :=
        Z.to_nat (astype_uint8 (np_round (of_nat (length rows) / 2))) in
      let left_lines := firstn half rows in
      let right_lines := skipn half rows in
      _ <~ draw_lines highest lowest
             ((1 # 2) * (stop - sbottom) / (of_nat (length left_lines) + 1))
             left_lines ;;
      vspace <~ lift (py_div ((1 # 2) * (stop - sbottom))
                             (of_nat (length left_lines))) ;;
      draw_lines highest lowest vspace right_lines
  end.

Definition CDplot (results : ndarray) (alpha : Q)
  (alg_names : option (list string)) : plot unit :=
  if negb (supported_alpha alpha) then
    lift (Err (PyException alpha_message))
  else
    match results with
    | Nd2 data =>
        let '(num_alg, num_dataset) := shape data in
        let names :=
          match alg_names with
          | None => map (fun cn => Placeholder (cn + 1)) (seq 0 num_alg)
          | Some l => map NameLabel l
          end in
        cd <~ lift (NemenyiCD get_tukeyQcrit np_sqrt alpha
                      (Z.of_nat num_alg) (Z.of_nat num_dataset)) ;;
        rranks <~ lift (ranks data) ;;
        let avranks0 := np_mean_rows rranks in
        let indices := sort_indices avranks0 in
        avranks <~ lift (take avranks0 indices) ;;
        let spoint := Z.to_nat (split_point num_alg) in
        let '(leftalg, rightalg) := split_algorithms num_alg avranks in
        let rows := astype_uint8 (Qceiling (of_nat num_alg / 2)) in
        highest <~ lift (highest_rank avranks) ;;
        lowest <~ lift (lowest_rank avranks) ;;
        _ <~ draw (Figure 6 ((375 # 1000) * (inject_Z rows + 1))) ;;
        _ <~ draw_axis highest lowest ;;
        _ <~ draw_left highest lowest spoint leftalg names indices ;;
        _ <~ draw_right highest lowest num_alg spoint rightalg names
               indices ;;
        _ <~ draw_cd highest lowest cd ;;
        nonsig <~ lift (_join_alg avranks num_alg cd) ;;
        draw_cliques highest lowest nonsig
    | _ => lift (Err (PyException ndim_message))
    end.

End Plot.

(** A table and a square root to run the examples with: the entry
    [q(0.05; 3, 6) = 4.339] of the Studentized-range table, repeated for
    every argument, and the square root truncated to six decimals. *)
Definition sample_tukey (k df : Z) (alpha : Q) : result Q := Ok (4339 # 1000).

Definition sample_sqrt (x : Q) : Q :=
  inject_Z (Z.sqrt (Qfloor (x * 1000000000000))) / 1000000.

(** The average ranks in ascending order, as [CDplot] computes them
    before it splits the algorithms. *)
Definition sorted_average_ranks (data : ndarray2) : result (list Q) :=
  rranks <- ranks data ;;
  take (np_mean_rows rranks) (sort_indices (np_mean_rows rranks)).

(** 256 algorithms on one dataset, with the scores [0 .. 255]. *)
Definition wide_example : ndarray2 :=
  mk_ndarray2 (map (fun i => [of_nat i]) (seq 0 256)) 1.

(** The number of entries of a column strictly smaller than [x]. *)
Definition count_lt (col : list Q) (x : Q) : nat :=
  length (filter (fun y => Qlt_bool y x) col).

(** Six algorithms on six datasets, algorithm [i] scoring [6 - i]
    everywhere. *)
Definition ladder_example : ndarray2 :=
  mk_ndarray2 (map (fun i => repeat (of_nat (6 - i)) 6) (seq 0 6)) 6.

(** The labels written on the figure, in order. *)
Fixpoint text_labels (artists : list artist) : list label :=
  match artists with
  | [] => []
  | Text _ _ s :: t => s :: text_labels t
  | _ :: t => text_labels t
  end.

(** Pairs ordered by their key, as [np_argsort] orders them. *)
Definition key_le (p q : Q * nat) : Prop := fst p <= fst q.

(** Cliques ordered strictly by their high endpoint. *)
Definition high_lt (c c' : Q * Q) : Prop := snd c < snd c'.

(** What the grouper's result makes of the call. *)
Definition outcome (r : result group_array) : result unit :=
  match r with
  | Err e => Err e
  | Ok (Group1 _) => Err IndexError
  | Ok (Group2 _) => Ok tt
  end.

(** At least as many names as algorithms, when names are given. *)
Definition enough_names (alg_names : option (list string)) (k : nat) : Prop :=
  match alg_names with
  | None => True
  | Some l => (k <= length l)%nat
  end.

(** A table that knows no entry. *)
Definition failing_tukey (k df : Z) (alpha : Q) : result Q :=
  Err LookupFailure.

(** A table implemented for the two levels only, and with no entry for
    zero or negative degrees of freedom. *)
Definition two_level_tukey (k df : Z) (alpha : Q) : result Q :=
  if negb (supported_alpha alpha) then Err ValueError
  else if (df <=? 0)%Z then Err LookupFailure
  else Ok (4339 # 1000).

(** The labels of the models: the given names, or the synthesized
    [$m_{1}$ ... $m_{k}$]. *)
Definition model_names (alg_names : option (list string)) (num_alg : nat)
  : list label :=
  match alg_names with
  | None => map (fun cn => Placeholder (cn + 1)) (seq 0 num_alg)
  | Some l => map NameLabel l
  end.

(** * Properties *)

(** ** Comparisons on [Q] *)

Lemma Qeq_boolP (x y : Q) : reflect (x == y) (Qeq_bool x y).
Proof. apply iff_reflect. symmetry. apply Qeq_bool_iff. Qed.

Lemma Qle_boolP (x y : Q) : reflect (x <= y) (Qle_bool x y).
Proof. apply iff_reflect. symmetry. apply Qle_bool_iff. Qed.

Lemma Qlt_boolP (x y : Q) : reflect (x < y) (Qlt_bool x y).
Proof.
  unfold Qlt_bool. destruct (Qle_boolP y x) as [H | H]; constructor.
  - now apply Qle_not_lt.
  - now apply Qnot_le_lt.
Qed.

Lemma Qeq_bool_compat (x x' y y' : Q) :
  x == x' -> y == y' -> Qeq_bool x y = Qeq_bool x' y'.
Proof.
  intros Hx Hy.
  destruct (Qeq_boolP x y) as [H | H], (Qeq_boolP x' y') as [H' | H'];
    try reflexivity; exfalso; apply H' || apply H.
  - now rewrite <- Hx, <- Hy.
  - now rewrite Hx, Hy.
Qed.

Lemma Qlt_bool_compat (x x' y y' : Q) :
  x == x' -> y == y' -> Qlt_bool x y = Qlt_bool x' y'.
Proof.
  intros Hx Hy.
  destruct (Qlt_boolP x y) as [H | H], (Qlt_boolP x' y') as [H' | H'];
    try reflexivity; exfalso; apply H' || apply H.
  - now rewrite <- Hx, <- Hy.
  - now rewrite Hx, Hy.
Qed.

Lemma Qneg_neg (y : Q) : -1 * - y == y.
Proof. ring. Qed.

(** ** Counting is invariant under permutation and renaming *)

Lemma filter_length_perm {A : Type} (f : A -> bool) (l l' : list A) :
  Permutation l l' -> length (filter f l) = length (filter f l').
Proof.
  induction 1 as [ | x l l' _ IH | x y l | l l' l'' _ IH1 _ IH2 ]; simpl.
  - reflexivity.
  - destruct (f x); simpl; congruence.
  - destruct (f x), (f y); reflexivity.
  - congruence.
Qed.

Lemma filter_length_map {A B : Type} (f : B -> bool) (g : A -> B) (l : list A) :
  length (filter f (map g l)) = length (filter (fun a => f (g a)) l).
Proof.
  induction l as [ | a l IH ]; simpl; [ reflexivity | ].
  destruct (f (g a)); simpl; congruence.
Qed.

Lemma filter_length_ext {A : Type} (f g : A -> bool) (l : list A) :
  (forall a, f a = g a) -> length (filter f l) = length (filter g l).
Proof. intros H. now rewrite (filter_ext f g H). Qed.

Lemma count_gt_compat (col : list Q) (x x' : Q) :
  x == x' -> count_gt col x = count_gt col x'.
Proof.
  intros H. apply filter_length_ext. intros y.
  apply Qlt_bool_compat; [ exact H | reflexivity ].
Qed.

Lemma count_eq_compat (col : list Q) (x x' : Q) :
  x == x' -> count_eq col x = count_eq col x'.
Proof.
  intros H. apply filter_length_ext. intros y.
  apply Qeq_bool_compat; [ reflexivity | exact H ].
Qed.

Lemma first_index_compat (ar : list Q) (v v' : Q) :
  v == v' -> first_index v ar = first_index v' ar.
Proof.
  intros H. induction ar as [ | y t IH ]; simpl; [ reflexivity | ].
  rewrite (Qeq_bool_compat y y v v' (Qeq_refl y) H), IH. reflexivity.
Qed.

Lemma count_eq_pos_iff (col : list Q) (x : Q) :
  (0 < count_eq col x)%nat <-> exists y, In y col /\ y == x.
Proof.
  unfold count_eq. induction col as [ | a col IH ]; simpl.
  - split; [ lia | intros (y & [] & _) ].
  - destruct (Qeq_boolP a x) as [E | E]; simpl.
    + split; [ intros _; exists a; auto | lia ].
    + rewrite IH. split.
      * intros (y & Hy & Hyx). exists y; auto.
      * intros (y & [<- | Hy] & Hyx); [ contradiction | exists y; auto ].
Qed.

Lemma count_eq_nth (col : list Q) (i : nat) :
  (i < length col)%nat -> (0 < count_eq col (nth i col 0%Q))%nat.
Proof.
  intros H. apply count_eq_pos_iff. exists (nth i col 0).
  split; [ now apply nth_In | reflexivity ].
Qed.

(** ** [np_sort] sorts *)

Lemma insert_sorted_perm (x : Q) (l : list Q) :
  Permutation (insert_sorted x l) (x :: l).
Proof.
  induction l as [ | y t IH ]; simpl; [ reflexivity | ].
  destruct (Qle_bool x y); [ reflexivity | ].
  rewrite IH. apply perm_swap.
Qed.

Lemma np_sort_perm (l : list Q) : Permutation (np_sort l) l.
Proof.
  induction l as [ | x l IH ]; simpl; [ reflexivity | ].
  rewrite insert_sorted_perm. now constructor.
Qed.

Lemma insert_sorted_sorted (x : Q) (l : list Q) :
  StronglySorted Qle l -> StronglySorted Qle (insert_sorted x l).
Proof.
  induction 1 as [ | y t Hs IH Hy ]; simpl.
  - repeat constructor.
  - destruct (Qle_boolP x y) as [Hxy | Hxy].
    + constructor; [ now constructor | ].
      constructor; [ exact Hxy | ].
      eapply Forall_impl; [ | exact Hy ].
      intros z Hz. now apply Qle_trans with y.
    + constructor; [ exact IH | ].
      eapply Permutation_Forall.
      * symmetry. apply insert_sorted_perm.
      * constructor; [ | exact Hy ].
        apply Qlt_le_weak. now apply Qnot_le_lt.
Qed.

Lemma np_sort_sorted (l : list Q) : StronglySorted Qle (np_sort l).
Proof.
  induction l as [ | x l IH ]; simpl.
  - constructor.
  - now apply insert_sorted_sorted.
Qed.

(** ** The column sorted in descending order *)

Lemma count_gt_descending (col : list Q) (x : Q) :
  count_gt (descending col) x = count_gt col x.
Proof.
  unfold count_gt, descending.
  rewrite filter_length_map, (filter_length_perm _ _ _ (np_sort_perm _)).
  rewrite filter_length_map. apply filter_length_ext. intros y.
  apply Qlt_bool_compat; [ reflexivity | apply Qneg_neg ].
Qed.

Lemma count_eq_descending (col : list Q) (x : Q) :
  count_eq (descending col) x = count_eq col x.
Proof.
  unfold count_eq, descending.
  rewrite filter_length_map, (filter_length_perm _ _ _ (np_sort_perm _)).
  rewrite filter_length_map. apply filter_length_ext. intros y.
  apply Qeq_bool_compat; [ apply Qneg_neg | reflexivity ].
Qed.

Lemma descending_sorted (col : list Q) :
  StronglySorted (fun a b => b <= a) (descending col).
Proof.
  unfold descending.
  induction (np_sort_sorted (map Qopp col)) as [ | y t Hs IH Hy ]; simpl.
  - constructor.
  - constructor; [ exact IH | ].
    apply Forall_map. eapply Forall_impl; [ | exact Hy ].
    intros z Hz. simpl.
    setoid_replace (-1 * z) with (- z) by ring.
    setoid_replace (-1 * y) with (- y) by ring.
    now apply Qopp_le_compat.
Qed.

(** In a descending array the first occurrence of a value sits after
    exactly the strictly larger entries. *)
Lemma first_index_descending (d : list Q) (v : Q) :
  StronglySorted (fun a b => b <= a) d ->
  (0 < count_eq d v)%nat ->
  first_index v d = count_gt d v.
Proof.
  unfold count_gt, count_eq.
  induction 1 as [ | y t Hs IH Hy ]; simpl; [ lia | ].
  destruct (Qeq_boolP y v) as [E | E]; simpl; intros Hpos.
  - destruct (Qlt_boolP v y) as [L | _].
    + exfalso. rewrite E in L. now apply (Qlt_irrefl v).
    + symmetry. apply length_zero_iff_nil.
      assert (Hnone : forall z, In z t -> Qlt_bool v z = false).
      { intros z Hz. rewrite Forall_forall in Hy.
        destruct (Qlt_boolP v z) as [L | _]; [ | reflexivity ].
        exfalso. apply (Qlt_irrefl v).
        apply Qlt_le_trans with z; [ exact L | ].
        rewrite <- E. now apply Hy. }
      clear - Hnone. induction t as [ | z t IH ]; simpl; [ reflexivity | ].
      rewrite (Hnone z (or_introl eq_refl)). apply IH.
      intros w Hw. apply Hnone. now right.
  - assert (L : v < y).
    { apply (proj1 (count_eq_pos_iff t v)) in Hpos.
      destruct Hpos as (z & Hz & Hzv).
      rewrite Forall_forall in Hy. specialize (Hy z Hz).
      destruct (Qlt_le_dec v y) as [ | Hle ]; [ assumption | ].
      exfalso. apply E. apply Qle_antisym; [ exact Hle | ].
      now rewrite <- Hzv. }
    destruct (Qlt_boolP v y) as [_ | N]; [ | contradiction ].
    simpl. f_equal. now apply IH.
Qed.

(** ** The distinct values of a sorted array *)

Lemma uniq_from_above (x p : Q) (s : list Q) :
  StronglySorted Qle (p :: s) -> x <= p ->
  filter (fun v => Qeq_bool v x) (uniq_from p s) = [].
Proof.
  revert p. induction s as [ | y t IH ]; intros p Hs Hx; simpl.
  - reflexivity.
  - inversion Hs as [ | ? ? Hs' Hall ]; subst.
    inversion Hs' as [ | ? ? Hs'' Hall' ]; subst.
    inversion Hall as [ | ? ? Hpy Hall'' ]; subst.
    destruct (Qeq_boolP p y) as [E | E].
    + apply IH; [ | exact Hx ]. now constructor.
    + simpl. destruct (Qeq_boolP y x) as [E' | _].
      * exfalso. apply E. apply Qle_antisym; [ exact Hpy | ].
        now rewrite E'.
      * apply IH; [ exact Hs' | ]. now apply Qle_trans with p.
Qed.

Lemma uniq_from_select (x p : Q) (s : list Q) :
  StronglySorted Qle (p :: s) -> ~ p == x -> (0 < count_eq s x)%nat ->
  exists v, v == x /\ filter (fun v => Qeq_bool v x) (uniq_from p s) = [v].
Proof.
  unfold count_eq.
  revert p. induction s as [ | y t IH ]; intros p Hs Hp Hpos; simpl in *.
  - lia.
  - inversion Hs as [ | ? ? Hs' Hall ]; subst.
    inversion Hs' as [ | ? ? Hs'' Hall' ]; subst.
    inversion Hall as [ | ? ? Hpy Hall'' ]; subst.
    destruct (Qeq_boolP p y) as [E | E].
    + destruct (Qeq_boolP y x) as [E' | _].
      * exfalso. apply Hp. now rewrite E.
      * apply IH; [ now constructor | exact Hp | exact Hpos ].
    + simpl. destruct (Qeq_boolP y x) as [E' | E'].
      * exists y. split; [ exact E' | ]. f_equal.
        apply uniq_from_above; [ exact Hs' | ].
        rewrite E'. apply Qle_refl.
      * apply IH; [ exact Hs' | exact E' | exact Hpos ].
Qed.

Lemma uniq_select (x : Q) (s : list Q) :
  StronglySorted Qle s -> (0 < count_eq s x)%nat ->
  exists v, v == x /\ filter (fun v => Qeq_bool v x) (uniq s) = [v].
Proof.
  destruct s as [ | p s ]; intros Hs Hpos.
  - unfold count_eq in Hpos. simpl in Hpos. lia.
  - simpl. destruct (Qeq_boolP p x) as [E | E].
    + exists p. split; [ exact E | ]. f_equal.
      apply uniq_from_above; [ exact Hs | ]. rewrite E. apply Qle_refl.
    + apply uniq_from_select; [ exact Hs | exact E | ].
      unfold count_eq in *. simpl in Hpos.
      destruct (Qeq_boolP p x); [ contradiction | exact Hpos ].
Qed.

Lemma mask_select_map {A B : Type} (f : A -> bool) (g : A -> B) (l : list A) :
  mask_select (map f l) (map g l) = map g (filter f l).
Proof.
  induction l as [ | a l IH ]; simpl; [ reflexivity | ].
  destruct (f a); simpl; now rewrite IH.
Qed.

(** The increment added to cell [(i, j)] is a one-element array holding
    the number of larger entries plus half the number of other ties. *)
Lemma rank_increment_spec (col : list Q) (x : Q) :
  (0 < count_eq col x)%nat ->
  let '(values, indices, rep) := np_unique (descending col) in
  rank_increment values indices rep x =
  [of_nat (count_gt col x) + (1 # 2) * (of_nat (count_eq col x) - 1)].
Proof.
  intros Hpos. unfold np_unique, rank_increment.
  rewrite !mask_select_map.
  destruct (uniq_select x (np_sort (descending col))) as (v & Hv & ->).
  - apply np_sort_sorted.
  - unfold count_eq in *.
    rewrite (filter_length_perm _ _ _ (np_sort_perm _)).
    fold (count_eq (descending col) x). now rewrite count_eq_descending.
  - simpl. unfold occurrences. fold (count_eq (descending col) v).
    rewrite (first_index_compat _ _ _ Hv), (count_eq_compat _ _ _ Hv).
    rewrite first_index_descending.
    + now rewrite count_gt_descending, count_eq_descending.
    + apply descending_sorted.
    + now rewrite count_eq_descending.
Qed.

(** ** Reading and writing cells *)

Lemma list_set_length {A : Type} (l : list A) (i : nat) (v : A) :
  length (list_set l i v) = length l.
Proof.
  revert i. induction l as [ | x t IH ]; intros [ | i ]; simpl; auto.
Qed.

Lemma nth_list_set_eq {A : Type} (l : list A) (i : nat) (v d : A) :
  (i < length l)%nat -> nth i (list_set l i v) d = v.
Proof.
  revert i. induction l as [ | x t IH ]; intros [ | i ] H; simpl in *;
    try lia; [ reflexivity | apply IH; lia ].
Qed.

Lemma nth_list_set_neq {A : Type} (l : list A) (i i' : nat) (v d : A) :
  i <> i' -> nth i' (list_set l i v) d = nth i' l d.
Proof.
  revert i i'. induction l as [ | x t IH ]; intros [ | i ] [ | i' ] H;
    simpl; try reflexivity; try congruence.
  apply IH. congruence.
Qed.

Lemma has_shape_row (M : matrix) (k n i : nat) :
  has_shape M k n -> (i < k)%nat -> length (nth i M []) = n.
Proof.
  intros [Hk Hn] Hi. rewrite Forall_forall in Hn.
  apply Hn, nth_In. lia.
Qed.

Lemma get_cell_ok (M : matrix) (k n i j : nat) :
  has_shape M k n -> (i < k)%nat -> (j < n)%nat ->
  get_cell M i j = Ok (cell M i j).
Proof.
  intros HM Hi Hj. unfold get_cell, cell.
  pose proof (has_shape_row M k n i HM Hi) as Hrow.
  destruct HM as [Hk _].
  rewrite (nth_error_nth' M [] (n := i)) by lia.
  rewrite (nth_error_nth' _ 0 (n := j)) by lia.
  reflexivity.
Qed.

Lemma set_cell_shape (M : matrix) (k n i j : nat) (v : Q) :
  has_shape M k n -> (i < k)%nat -> has_shape (set_cell M i j v) k n.
Proof.
  intros HM Hi. pose proof (has_shape_row M k n i HM Hi) as Hrow.
  destruct HM as [Hk Hn]. unfold set_cell. split.
  - now rewrite list_set_length.
  - clear Hk Hi. revert i Hrow.
    induction Hn as [ | r M Hr Hn IH ]; intros [ | i ] Hrow; simpl in *.
    + constructor.
    + constructor.
    + constructor; [ now rewrite list_set_length | exact Hn ].
    + constructor; [ exact Hr | now apply IH ].
Qed.

Lemma cell_set_cell_same (M : matrix) (k n i j : nat) (v : Q) :
  has_shape M k n -> (i < k)%nat -> (j < n)%nat ->
  cell (set_cell M i j v) i j = v.
Proof.
  intros HM Hi Hj. pose proof (has_shape_row M k n i HM Hi) as Hrow.
  destruct HM as [Hk _]. unfold cell, set_cell.
  rewrite nth_list_set_eq by lia. apply nth_list_set_eq. lia.
Qed.

Lemma cell_set_cell_other (M : matrix) (k n i j i' j' : nat) (v : Q) :
  has_shape M k n -> (i < k)%nat -> (i' <> i \/ j' <> j) ->
  cell (set_cell M i j v) i' j' = cell M i' j'.
Proof.
  intros [Hk _] Hi Hne. unfold cell, set_cell.
  destruct (Nat.eq_dec i i') as [<- | Hii].
  - rewrite nth_list_set_eq by lia. apply nth_list_set_neq.
    destruct Hne; congruence.
  - now rewrite nth_list_set_neq.
Qed.

Lemma nth_column (M : matrix) (i j : nat) :
  nth i (column M j) 0 = cell M i j.
Proof.
  unfold column, cell.
  rewrite <- (map_nth (fun r => nth j r 0) M [] i).
  now destruct j.
Qed.

Lemma cell_np_ones (k n i j : nat) :
  (i < k)%nat -> (j < n)%nat -> cell (np_ones k n) i j = 1.
Proof.
  intros Hi Hj. unfold cell, np_ones.
  rewrite nth_repeat_lt by exact Hi.
  now apply nth_repeat_lt.
Qed.

Lemma np_ones_shape (k n : nat) : has_shape (np_ones k n) k n.
Proof.
  unfold np_ones. split.
  - apply repeat_length.
  - apply Forall_forall. intros r Hr.
    apply repeat_spec in Hr. subst. apply repeat_length.
Qed.

(** ** The two loops of [ranks] *)

Lemma ranks_cell_step (data R : matrix) (k n i j : nat) :
  has_shape data k n -> has_shape R k n -> (i < k)%nat -> (j < n)%nat ->
  let '(values, indices, rep) := np_unique (descending (column data j)) in
  ranks_cell data values indices rep j (Ok R) i =
  Ok (set_cell R i j
        (cell R i j + rank_delta (column data j) (cell data i j))).
Proof.
  intros Hd HR Hi Hj.
  pose proof (rank_increment_spec (column data j) (cell data i j)) as Hinc.
  revert Hinc.
  destruct (np_unique (descending (column data j))) as [[values indices] rep].
  intros Hinc. unfold ranks_cell. simpl.
  rewrite (get_cell_ok data k n), (get_cell_ok R k n) by assumption.
  simpl. rewrite Hinc; [ reflexivity | ].
  rewrite <- nth_column. apply count_eq_nth.
  unfold column. rewrite length_map. destruct Hd as [Hk _]. lia.
Qed.

Lemma ranks_cell_fold (data : matrix) (k n j : nat) :
  has_shape data k n -> (j < n)%nat ->
  forall (rows : list nat) (R : matrix),
  has_shape R k n -> NoDup rows -> (forall i, In i rows -> (i < k)%nat) ->
  let '(values, indices, rep) := np_unique (descending (column data j)) in
  exists R',
    fold_left (ranks_cell data values indices rep j) rows (Ok R) = Ok R' /\
    has_shape R' k n /\
    (forall i, In i rows ->
       cell R' i j = cell R i j + rank_delta (column data j) (cell data i j)) /\
    (forall i' j', ~ In i' rows \/ j' <> j -> cell R' i' j' = cell R i' j').
Proof.
  intros Hd Hj rows.
  pose proof (fun R i => ranks_cell_step data R k n i j Hd) as Hstep.
  revert Hstep.
  destruct (np_unique (descending (column data j))) as [[values indices] rep].
  intros Hstep.
  induction rows as [ | i rows IH ]; intros R HR Hnd Hlt; cbn [fold_left].
  - exists R. split; [ reflexivity | ]. split; [ exact HR | ].
    split; [ intros i [] | reflexivity ].
  - inversion Hnd as [ | ? ? Hni Hnd' ]; subst.
    assert (Hi : (i < k)%nat) by (apply Hlt; now left).
    rewrite (Hstep R i HR Hi Hj).
    destruct (IH (set_cell R i j
               (cell R i j + rank_delta (column data j) (cell data i j))))
      as (R' & Hfold & HR' & Hin & Hout).
    + now apply set_cell_shape.
    + exact Hnd'.
    + intros i' Hi'. apply Hlt. now right.
    + exists R'. split; [ exact Hfold | ]. split; [ exact HR' | ]. split.
      * intros i' [<- | Hi'].
        -- rewrite Hout by (now left).
           now rewrite (cell_set_cell_same R k n).
        -- rewrite Hin by exact Hi'.
           rewrite (cell_set_cell_other R k n); [ reflexivity | | | ]; auto.
           left. intros ->. contradiction.
      * intros i' j' Hne. rewrite Hout.
        -- apply (cell_set_cell_other R k n); auto.
           destruct Hne as [Hne | Hne]; [ left | now right ].
           intros ->. apply Hne. now left.
        -- destruct Hne as [Hne | Hne]; [ left | now right ].
           intros Hi'. apply Hne. now right.
Qed.

Lemma ranks_column_step (data R : matrix) (k j : nat) :
  ranks_column data k (Ok R) j =
  let '(values, indices, rep) := np_unique (descending (column data j)) in
  fold_left (ranks_cell data values indices rep j) (seq 0 k) (Ok R).
Proof. reflexivity. Qed.

Lemma ranks_column_fold (data : matrix) (k n : nat) :
  has_shape data k n ->
  forall (cols : list nat) (R : matrix),
  has_shape R k n -> NoDup cols -> (forall j, In j cols -> (j < n)%nat) ->
  exists R',
    fold_left (ranks_column data k) cols (Ok R) = Ok R' /\
    has_shape R' k n /\
    (forall i j, (i < k)%nat -> In j cols ->
       cell R' i j = cell R i j + rank_delta (column data j) (cell data i j)) /\
    (forall i j, ~ In j cols -> cell R' i j = cell R i j).
Proof.
  intros Hd cols.
  induction cols as [ | j cols IH ]; intros R HR Hnd Hlt; cbn [fold_left].
  - exists R. split; [ reflexivity | ]. split; [ exact HR | ].
    split; [ intros i j _ [] | reflexivity ].
  - inversion Hnd as [ | ? ? Hnj Hnd' ]; subst.
    assert (Hj : (j < n)%nat) by (apply Hlt; now left).
    pose proof (ranks_cell_fold data k n j Hd Hj (seq 0 k) R HR
                  (seq_NoDup k 0)) as Hcol.
    rewrite ranks_column_step. revert Hcol.
    destruct (np_unique (descending (column data j))) as [[values indices] rep].
    intros Hcol. destruct Hcol as (R1 & Hfold & HR1 & Hin & Hout).
    { intros i Hi. apply in_seq in Hi. lia. }
    rewrite Hfold.
    destruct (IH R1 HR1 Hnd') as (R' & Hfold' & HR' & Hin' & Hout').
    { intros j' Hj'. apply Hlt. now right. }
    exists R'. split; [ exact Hfold' | ]. split; [ exact HR' | ]. split.
    + intros i j' Hi [<- | Hj'].
      * rewrite Hout' by exact Hnj. apply Hin. apply in_seq. lia.
      * rewrite Hin' by assumption. rewrite Hout; [ reflexivity | ].
        right. intros ->. contradiction.
    + intros i j' Hj'. rewrite Hout'.
      * apply Hout. right. intros ->. apply Hj'. now left.
      * intros Hin''. apply Hj'. now right.
Qed.

(** [ranks] returns a matrix of the shape of its argument whose cell
    [(i, j)] is [1] plus the increment of row [i] in column [j]. *)
Lemma ranks_cells (data : ndarray2) :
  wf_array data ->
  exists R,
    ranks data = Ok R /\
    has_shape R (length (arr_rows data)) (n_cols data) /\
    forall i j, (i < length (arr_rows data))%nat -> (j < n_cols data)%nat ->
      cell R i j =
      1 + rank_delta (column (arr_rows data) j) (cell (arr_rows data) i j).
Proof.
  intros Hwf. unfold ranks, shape.
  destruct (ranks_column_fold (arr_rows data) _ _ Hwf (seq 0 (n_cols data))
              (np_ones (length (arr_rows data)) (n_cols data)))
    as (R & Hfold & HR & Hin & _).
  - apply np_ones_shape.
  - apply seq_NoDup.
  - intros j Hj. apply in_seq in Hj. lia.
  - exists R. split; [ exact Hfold | ]. split; [ exact HR | ].
    intros i j Hi Hj. rewrite Hin.
    + now rewrite cell_np_ones.
    + exact Hi.
    + apply in_seq. lia.
Qed.

Lemma midrank_delta (col : list Q) (x : Q) :
  1 + rank_delta col x == midrank col x.
Proof. unfold rank_delta, midrank. ring. Qed.

Lemma midrank_compat (col : list Q) (x x' : Q) :
  x == x' -> midrank col x == midrank col x'.
Proof.
  intros H. unfold midrank.
  now rewrite (count_gt_compat col x x' H), (count_eq_compat col x x' H).
Qed.

(** C1.  For a 2-D results matrix with [k] rows, [ranks] returns a matrix
    of the same shape whose cell [(i, j)] is
    [1 + (number of entries of column j strictly greater than data[i][j])
       + 0.5 * (number of entries of column j equal to data[i][j] - 1)],
    and rows that share a value in a column receive the same rank there. *)
Theorem ranks_midrank (data : ndarray2) :
  wf_array data ->
  exists R,
    ranks data = Ok R /\
    has_shape R (length (arr_rows data)) (n_cols data) /\
    (forall i j, (i < length (arr_rows data))%nat -> (j < n_cols data)%nat ->
       cell R i j ==
       1 + of_nat (count_gt (column (arr_rows data) j) (cell (arr_rows data) i j))
         + (1 # 2) *
           (of_nat (count_eq (column (arr_rows data) j) (cell (arr_rows data) i j))
            - 1)) /\
    (forall i i' j,
       (i < length (arr_rows data))%nat -> (i' < length (arr_rows data))%nat ->
       (j < n_cols data)%nat ->
       cell (arr_rows data) i j == cell (arr_rows data) i' j ->
       cell R i j == cell R i' j).
Proof.
  intros Hwf. destruct (ranks_cells data Hwf) as (R & HR & Hsh & Hcell).
  exists R. split; [ exact HR | ]. split; [ exact Hsh | ]. split.
  - intros i j Hi Hj. rewrite Hcell by assumption. apply midrank_delta.
  - intros i i' j Hi Hi' Hj Heq.
    rewrite !Hcell by assumption. rewrite !midrank_delta.
    now apply midrank_compat.
Qed.

(** ** Columns without ties *)

Lemma count_gt_eq_le (col : list Q) (x : Q) :
  (count_gt col x + count_eq col x <= length col)%nat.
Proof.
  unfold count_gt, count_eq. induction col as [ | a t IH ]; simpl; [ lia | ].
  destruct (Qlt_boolP x a) as [L | L], (Qeq_boolP a x) as [E | E]; simpl;
    try lia.
  exfalso. rewrite E in L. now apply (Qlt_irrefl x).
Qed.

Lemma count_gt_strict (col : list Q) (x y : Q) :
  x < y -> (count_gt col y + count_eq col y <= count_gt col x)%nat.
Proof.
  intros Hxy. unfold count_gt, count_eq.
  induction col as [ | a t IH ]; simpl; [ lia | ].
  destruct (Qlt_boolP y a) as [L | L], (Qeq_boolP a y) as [E | E],
           (Qlt_boolP x a) as [L' | L']; simpl; try lia; exfalso.
  - rewrite E in L. now apply (Qlt_irrefl y).
  - rewrite E in L. now apply (Qlt_irrefl y).
  - apply L'. now apply Qlt_trans with y.
  - apply L'. now rewrite E.
Qed.

Lemma count_eq_twice (col : list Q) (x y : Q) :
  In x col -> In y col -> x == y -> x <> y -> (2 <= count_eq col x)%nat.
Proof.
  intros Hx Hy Hxy Hne. unfold count_eq.
  induction col as [ | a t IH ]; simpl in *; [ contradiction | ].
  destruct Hx as [-> | Hx], Hy as [-> | Hy].
  - congruence.
  - destruct (Qeq_boolP x x) as [_ | N]; [ | now destruct N ].
    simpl. apply le_n_S. apply (proj2 (count_eq_pos_iff t x)).
    exists y. split; [ exact Hy | now symmetry ].
  - destruct (Qeq_boolP y x) as [_ | N]; [ | now destruct N ].
    simpl. apply le_n_S. apply (proj2 (count_eq_pos_iff t x)).
    exists x. split; [ exact Hx | reflexivity ].
  - specialize (IH Hx Hy). destruct (Qeq_bool a x); simpl; lia.
Qed.

Lemma count_eq_self_twice (x : Q) (t : list Q) :
  In x t -> (2 <= count_eq (x :: t) x)%nat.
Proof.
  intros Hx. unfold count_eq. simpl.
  destruct (Qeq_boolP x x) as [_ | N]; [ | now destruct N ].
  simpl. apply le_n_S. apply (proj2 (count_eq_pos_iff t x)).
  exists x. split; [ exact Hx | reflexivity ].
Qed.

Lemma count_eq_cons_le (a x : Q) (t : list Q) :
  (count_eq t x <= count_eq (a :: t) x)%nat.
Proof. unfold count_eq. simpl. destruct (Qeq_bool a x); simpl; lia. Qed.

Lemma no_tie_NoDup (col : list Q) : no_tie col -> NoDup col.
Proof.
  unfold no_tie. intros H.
  assert (Hle : forall x, In x col -> (count_eq col x <= 1)%nat).
  { rewrite Forall_forall in H. intros x Hx. rewrite (H x Hx). lia. }
  clear H. induction col as [ | a t IH ]; constructor.
  - intros Ha. pose proof (count_eq_self_twice a t Ha) as H2.
    specialize (Hle a (or_introl eq_refl)). lia.
  - apply IH. intros x Hx.
    pose proof (count_eq_cons_le a x t) as H1.
    specialize (Hle x (or_intror Hx)). lia.
Qed.

Lemma count_gt_injective (col : list Q) (x y : Q) :
  no_tie col -> In x col -> In y col ->
  count_gt col x = count_gt col y -> x = y.
Proof.
  intros Hnt Hx Hy Heq. unfold no_tie in Hnt. rewrite Forall_forall in Hnt.
  pose proof (Hnt x Hx) as Hcx. pose proof (Hnt y Hy) as Hcy.
  destruct (Q_dec x y) as [[L | L] | E].
  - pose proof (count_gt_strict col x y L). lia.
  - pose proof (count_gt_strict col y x L). lia.
  - destruct (Qeq_dec x y) as [_ | N]; [ | contradiction ].
    assert (Hd : {x = y} + {x <> y}).
    { destruct x as [a b], y as [c d].
      destruct (Z.eq_dec a c) as [-> | ]; [ | right; congruence ].
      destruct (Pos.eq_dec b d) as [-> | ]; [ now left | right; congruence ]. }
    destruct Hd as [ | Hne ]; [ assumption | ].
    pose proof (count_eq_twice col x y Hx Hy E Hne). lia.
Qed.

(** Without ties, the numbers of larger entries enumerate [0 .. k-1]. *)
Lemma count_gt_permutation (col : list Q) :
  no_tie col ->
  Permutation (map (count_gt col) col) (seq 0 (length col)).
Proof.
  intros Hnt. apply NoDup_Permutation_bis.
  - apply NoDup_map_NoDup_ForallPairs; [ | now apply no_tie_NoDup ].
    intros x y Hx Hy. now apply count_gt_injective.
  - now rewrite length_seq, length_map.
  - intros m Hm. apply in_map_iff in Hm. destruct Hm as (x & <- & Hx).
    apply in_seq. split; [ lia | ]. simpl.
    pose proof (count_gt_eq_le col x).
    unfold no_tie in Hnt. rewrite Forall_forall in Hnt.
    rewrite (Hnt x Hx) in *. lia.
Qed.

Lemma Forall2_by_index {A B : Type} (P : A -> B -> Prop) (d : A) (d' : B)
  (l : list A) (l' : list B) :
  length l = length l' ->
  (forall i, (i < length l)%nat -> P (nth i l d) (nth i l' d')) ->
  Forall2 P l l'.
Proof.
  revert l'. induction l as [ | a l IH ]; intros [ | b l' ] Hlen H;
    simpl in Hlen; try discriminate; constructor.
  - apply (H 0%nat). simpl. lia.
  - apply IH; [ congruence | ].
    intros i Hi. apply (H (S i)). simpl. lia.
Qed.

Lemma column_length (M : matrix) (j : nat) : length (column M j) = length M.
Proof. unfold column. apply length_map. Qed.

Lemma nth_map_in_range {A B : Type} (f : A -> B) (l : list A) (i : nat)
  (d : A) (d' : B) :
  (i < length l)%nat -> nth i (map f l) d' = f (nth i l d).
Proof.
  intros H. rewrite (nth_indep _ d' (f d)) by (now rewrite length_map).
  apply map_nth.
Qed.

(** C8.  When no column of the results matrix contains a tie, the [k]
    values of every column of [ranks data] are a permutation of [1 .. k]. *)
Theorem ranks_permutation (data : ndarray2) :
  wf_array data ->
  (forall j, (j < n_cols data)%nat -> no_tie (column (arr_rows data) j)) ->
  exists R,
    ranks data = Ok R /\
    forall j, (j < n_cols data)%nat ->
      exists p : list nat,
        Permutation p (seq 1 (length (arr_rows data))) /\
        Forall2 (fun r m => r == of_nat m) (column R j) p.
Proof.
  intros Hwf Hnt. destruct (ranks_cells data Hwf) as (R & HR & Hsh & Hcell).
  exists R. split; [ exact HR | ]. intros j Hj.
  set (col := column (arr_rows data) j).
  exists (map S (map (count_gt col) col)). split.
  - rewrite <- seq_shift. apply Permutation_map.
    replace (length (arr_rows data)) with (length col)
      by apply column_length.
    apply count_gt_permutation. now apply Hnt.
  - assert (Hlen : length (column R j) = length col).
    { unfold col. rewrite !column_length. now destruct Hsh. }
    apply (Forall2_by_index _ 0 0%nat); [ now rewrite !length_map | ].
    intros i Hi. rewrite Hlen in Hi.
    rewrite map_map, (nth_map_in_range _ col i 0) by exact Hi.
    rewrite nth_column.
    unfold col in Hi. rewrite column_length in Hi.
    rewrite Hcell by assumption. unfold col. rewrite nth_column.
    unfold rank_delta.
    specialize (Hnt j Hj). unfold no_tie in Hnt. rewrite Forall_forall in Hnt.
    rewrite (Hnt (cell (arr_rows data) i j)).
    + unfold of_nat. change (inject_Z (Z.of_nat 1)) with 1.
      rewrite Nat2Z.inj_succ. unfold Z.succ. rewrite inject_Z_plus.
      change (inject_Z 1) with 1. ring.
    + rewrite <- nth_column. apply nth_In. now rewrite column_length.
Qed.

(** ** The first loop of [_join_alg]: the candidate pairs *)

Lemma np_where_from_filter (mask : list bool) (s : nat) :
  np_where_from s mask =
  filter (fun j => nth (j - s) mask false) (seq s (length mask)).
Proof.
  revert s. induction mask as [ | b m IH ]; intros s; simpl; [ reflexivity | ].
  rewrite Nat.sub_diag, IH.
  rewrite (filter_ext_in (fun j => nth (j - s) (b :: m) false)
                         (fun j => nth (j - S s) m false)).
  - reflexivity.
  - intros j Hj. apply in_seq in Hj.
    replace (j - s)%nat with (S (j - S s)) by lia. reflexivity.
Qed.

Lemma np_where_eligible (avranks : list Q) (cd : Q) (i : nat) :
  np_where
    (map (fun a => Qlt_bool 0 (a - nth i avranks 0) &&
                   Qlt_bool (a - nth i avranks 0) cd) avranks) =
  filter (eligible avranks cd i) (seq 0 (length avranks)).
Proof.
  unfold np_where. rewrite np_where_from_filter, length_map.
  apply filter_ext_in. intros j Hj. apply in_seq in Hj.
  rewrite Nat.sub_0_r.
  rewrite (nth_map_in_range _ avranks j 0) by lia. reflexivity.
Qed.

Lemma find_app {A : Type} (f : A -> bool) (l l' : list A) :
  find f (l ++ l') =
  match find f l with
  | Some x => Some x
  | None => find f l'
  end.
Proof.
  induction l as [ | x l IH ]; simpl; [ reflexivity | ].
  now destruct (f x).
Qed.

(** Searching backwards finds the last of the selected elements. *)
Lemma find_rev_filter {A : Type} (f : A -> bool) (d : A) (l : list A) :
  find f (rev l) =
  match filter f l with
  | [] => None
  | x :: t => Some (last (x :: t) d)
  end.
Proof.
  induction l as [ | x l IH ]; simpl; [ reflexivity | ].
  rewrite find_app, IH. simpl.
  destruct (f x), (filter f l); reflexivity.
Qed.

Lemma list_set_app {A : Type} (pre rest : list A) (x v : A) :
  list_set (pre ++ x :: rest) (length pre) v = pre ++ v :: rest.
Proof.
  induction pre as [ | y pre IH ]; simpl; [ reflexivity | ].
  now rewrite IH.
Qed.

Lemma pairs_step_row (avranks : list Q) (cd : Q) (pre rest : list pair_row) :
  (length pre < length avranks)%nat ->
  pairs_step avranks cd (Ok (pre ++ (-1, -1) :: rest)) (length pre) =
  Ok (pre ++ row_of avranks cd (length pre) :: rest).
Proof.
  intros Hlt. unfold pairs_step, index. simpl.
  rewrite (nth_error_nth' avranks 0 Hlt). simpl.
  rewrite np_where_eligible.
  unfold row_of, candidate, farthest_partner.
  rewrite (find_rev_filter _ 0%nat).
  destruct (filter (eligible avranks cd (length pre)) (seq 0 (length avranks)))
    as [ | j js ].
  - reflexivity.
  - now rewrite list_set_app.
Qed.

Lemma pairs_fold (avranks : list Q) (cd : Q) (c : nat) :
  forall pre : list pair_row,
  (length pre + c = length avranks)%nat ->
  fold_left (pairs_step avranks cd) (seq (length pre) c)
            (Ok (pre ++ repeat (-1, -1) c)) =
  Ok (pre ++ map (row_of avranks cd) (seq (length pre) c)).
Proof.
  induction c as [ | c IH ]; intros pre Hlen; cbn [seq fold_left repeat map].
  - reflexivity.
  - rewrite pairs_step_row by lia.
    replace (pre ++ row_of avranks cd (length pre) :: repeat (-1, -1) c)
      with ((pre ++ [row_of avranks cd (length pre)]) ++ repeat (-1, -1) c)
      by (now rewrite <- app_assoc).
    replace (S (length pre))
      with (length (pre ++ [row_of avranks cd (length pre)]))
      by (rewrite length_app; simpl; lia).
    rewrite IH by (rewrite length_app; simpl; lia).
    now rewrite <- app_assoc.
Qed.

Lemma nth_nonneg (avranks : list Q) (i : nat) :
  Forall (fun r => 0 <= r) avranks -> 0 <= nth i avranks 0.
Proof.
  intros H. revert i.
  induction H as [ | a l Ha _ IH ]; intros [ | i ]; simpl;
    auto; apply Qle_refl.
Qed.

Lemma delete_sentinels (avranks : list Q) (cd : Q) (l : list nat) :
  Forall (fun r => 0 <= r) avranks ->
  filter (fun r : pair_row => negb (Qlt_bool (fst r) 0))
         (map (row_of avranks cd) l) =
  collect (candidate avranks cd) l.
Proof.
  intros Hpos. induction l as [ | i l IH ]; simpl; [ reflexivity | ].
  destruct (candidate avranks cd i) as [c | ] eqn:Hc.
  - assert (Hrow : row_of avranks cd i = c)
      by (unfold row_of; now rewrite Hc).
    assert (Hfst : fst c = nth i avranks 0).
    { unfold candidate in Hc.
      destruct (farthest_partner avranks cd i); [ | discriminate ].
      now inversion Hc. }
    rewrite Hrow, Hfst.
    destruct (Qlt_boolP (nth i avranks 0) 0) as [L | _].
    + exfalso. apply (Qlt_irrefl 0).
      apply Qle_lt_trans with (nth i avranks 0);
        [ now apply nth_nonneg | exact L ].
    + simpl. now rewrite IH.
  - assert (Hrow : row_of avranks cd i = (-1, -1))
      by (unfold row_of; now rewrite Hc).
    rewrite Hrow. exact IH.
Qed.

(** The array [sets] of the source, after the deletion, holds exactly the
    candidates of the anchors that have an eligible partner. *)
Lemma candidate_pairs_spec (avranks : list Q) (cd : Q) :
  Forall (fun r => 0 <= r) avranks ->
  candidate_pairs avranks (length avranks) cd = Ok (candidates avranks cd).
Proof.
  intros Hpos. unfold candidate_pairs, candidates.
  pose proof (pairs_fold avranks cd (length avranks) [] eq_refl) as H.
  cbn [length app] in H. rewrite H. cbn [bind]. f_equal.
  now apply delete_sentinels.
Qed.

(** ** The second loop of [_join_alg]: grouping *)

Lemma group_rows_vstack (g : group_array) (c : pair_row) :
  group_rows (np_vstack g c) = group_rows g ++ [c].
Proof. destruct g; reflexivity. Qed.

Lemma group_rows_fold (l : list pair_row) (g : group_array) :
  group_rows (fold_left np_vstack l g) = group_rows g ++ l.
Proof.
  revert g. induction l as [ | c l IH ]; intros g; simpl.
  - now rewrite app_nil_r.
  - now rewrite IH, group_rows_vstack, <- app_assoc.
Qed.

Lemma group_fold (rest : list pair_row) :
  forall (pre : list pair_row) (p : pair_row) (g : group_array),
  fold_left (group_step (pre ++ p :: rest))
            (seq (S (length pre)) (length rest)) g =
  fold_left np_vstack (chain p rest) g.
Proof.
  induction rest as [ | c t IH ]; intros pre p g; cbn [length seq fold_left chain].
  - reflexivity.
  - unfold group_step at 2.
    replace (S (length pre) - 1)%nat with (length pre) by lia.
    rewrite nth_middle.
    replace (pre ++ p :: c :: t) with ((pre ++ [p]) ++ c :: t)
      by (now rewrite <- app_assoc).
    replace (S (length pre)) with (length (pre ++ [p]))
      by (rewrite length_app; simpl; lia).
    rewrite nth_middle, IH.
    now destruct (Qlt_bool (snd p) (snd c)).
Qed.

Lemma group_pairs_chain (p : pair_row) (rest : list pair_row) :
  exists g, group_pairs (p :: rest) = Ok g /\
            group_rows g = p :: chain p rest.
Proof.
  unfold group_pairs, index. cbn [nth_error bind length].
  replace (S (length rest) - 1)%nat with (length rest) by lia.
  exists (fold_left (group_step (p :: rest)) (seq 1 (length rest)) (Group1 p)).
  split; [ reflexivity | ].
  rewrite (group_fold rest [] p). now rewrite group_rows_fold.
Qed.

(** When the high endpoints never decrease, comparing with the preceding
    candidate and comparing with the candidate kept last agree. *)
Lemma chain_merge (cs : list pair_row) :
  forall p kept : pair_row,
  StronglySorted high_le (p :: cs) -> snd kept == snd p ->
  chain p cs = merge_from kept cs.
Proof.
  induction cs as [ | c t IH ]; intros p kept Hs Hk; simpl; [ reflexivity | ].
  inversion Hs as [ | ? ? Hs' Hall ]; subst.
  inversion Hall as [ | ? ? Hpc _ ]; subst. unfold high_le in Hpc.
  rewrite (Qlt_bool_compat (snd kept) (snd p) (snd c) (snd c) Hk (Qeq_refl _)).
  destruct (Qlt_boolP (snd p) (snd c)) as [L | L].
  - f_equal. apply IH; [ exact Hs' | reflexivity ].
  - apply IH; [ exact Hs' | ].
    rewrite Hk. apply Qle_antisym; [ exact Hpc | now apply Qnot_lt_le ].
Qed.

(** ** The high endpoints of the candidates of a sorted sequence *)

Lemma find_rev_seq (f : nat -> bool) (n j : nat) :
  find f (rev (seq 0 n)) = Some j ->
  (j < n)%nat /\ f j = true /\
  forall j', (j < j' < n)%nat -> f j' = false.
Proof.
  induction n as [ | n IH ]; [ discriminate | ].
  rewrite seq_S, rev_app_distr. simpl.
  destruct (f n) eqn:Hn.
  - intros H. inversion H; subst. repeat split; [ lia | exact Hn | ].
    intros j' Hj'. lia.
  - intros H. destruct (IH H) as (Hlt & Hj & Hmax).
    repeat split; [ lia | exact Hj | ].
    intros j' Hj'. destruct (Nat.eq_dec j' n) as [-> | ]; [ exact Hn | ].
    apply Hmax. lia.
Qed.

Lemma eligible_iff (avranks : list Q) (cd : Q) (i j : nat) :
  eligible avranks cd i j = true <->
  0 < nth j avranks 0 - nth i avranks 0 /\
  nth j avranks 0 - nth i avranks 0 < cd.
Proof.
  unfold eligible. rewrite andb_true_iff.
  split; intros [H1 H2]; split;
    match goal with
    | |- _ = true =>
        match goal with
        | |- Qlt_bool ?x ?y = true =>
            destruct (Qlt_boolP x y); [ reflexivity | contradiction ]
        end
    | H : Qlt_bool ?x ?y = true |- ?x < ?y =>
        destruct (Qlt_boolP x y); [ assumption | discriminate ]
    end.
Qed.

Lemma sorted_nth (avranks : list Q) (j j' : nat) :
  StronglySorted Qle avranks ->
  (j <= j')%nat -> (j' < length avranks)%nat ->
  nth j avranks 0 <= nth j' avranks 0.
Proof.
  intros Hs. revert j j'.
  induction Hs as [ | a l Hs IH Ha ]; intros j j' Hjj Hj'; simpl in Hj'.
  - lia.
  - destruct j as [ | j ], j' as [ | j' ]; simpl; try lia.
    + apply Qle_refl.
    + rewrite Forall_forall in Ha. apply Ha, nth_In. lia.
    + apply IH; lia.
Qed.

Lemma farthest_high_monotone (avranks : list Q) (cd : Q) (i i' j j' : nat) :
  StronglySorted Qle avranks ->
  (i <= i')%nat -> (i' < length avranks)%nat ->
  farthest_partner avranks cd i = Some j ->
  farthest_partner avranks cd i' = Some j' ->
  nth j avranks 0 <= nth j' avranks 0.
Proof.
  intros Hs Hii Hi' Hj Hj'.
  apply find_rev_seq in Hj. destruct Hj as (Hjn & Hje & _).
  apply find_rev_seq in Hj'. destruct Hj' as (Hjn' & Hje' & Hmax).
  apply eligible_iff in Hje. apply eligible_iff in Hje'.
  pose proof (sorted_nth avranks i i' Hs Hii Hi') as Hle.
  destruct (Qlt_le_dec (nth j' avranks 0) (nth j avranks 0)) as [L | ];
    [ exfalso | assumption ].
  assert (Hjj : (j' < j)%nat).
  { destruct (Nat.lt_ge_cases j' j) as [ | Hge ]; [ assumption | exfalso ].
    pose proof (sorted_nth avranks j j' Hs Hge Hjn'). lra. }
  assert (He : eligible avranks cd i' j = true) by (apply eligible_iff; lra).
  rewrite (Hmax j) in He; [ discriminate | lia ].
Qed.

Lemma in_collect {A : Type} (f : nat -> option A) (l : list nat) (c : A) :
  In c (collect f l) -> exists i, In i l /\ f i = Some c.
Proof.
  induction l as [ | i l IH ]; simpl; [ contradiction | ].
  destruct (f i) as [c' | ] eqn:Hf.
  - intros [<- | H].
    + exists i. auto.
    + destruct (IH H) as (i' & Hi' & Hc). exists i'. auto.
  - intros H. destruct (IH H) as (i' & Hi' & Hc). exists i'. auto.
Qed.

Lemma candidates_sorted_from (avranks : list Q) (cd : Q) (c : nat) :
  StronglySorted Qle avranks ->
  forall m, (m + c <= length avranks)%nat ->
  StronglySorted high_le (collect (candidate avranks cd) (seq m c)).
Proof.
  intros Hs. induction c as [ | c IH ]; intros m Hm; simpl.
  - constructor.
  - destruct (candidate avranks cd m) as [r | ] eqn:Hr;
      [ | apply IH; lia ].
    constructor; [ apply IH; lia | ].
    apply Forall_forall. intros r' Hr'.
    apply in_collect in Hr'. destruct Hr' as (i' & Hi' & Hc').
    apply in_seq in Hi'.
    unfold candidate in Hr, Hc'.
    destruct (farthest_partner avranks cd m) as [j | ] eqn:Hj;
      [ | discriminate ].
    destruct (farthest_partner avranks cd i') as [j' | ] eqn:Hj';
      [ | discriminate ].
    inversion Hr; inversion Hc'; subst. unfold high_le. simpl.
    apply (farthest_high_monotone avranks cd m i' j j' Hs); auto; lia.
Qed.

Lemma candidates_sorted (avranks : list Q) (cd : Q) :
  StronglySorted Qle avranks ->
  StronglySorted high_le (candidates avranks cd).
Proof.
  intros Hs. unfold candidates.
  apply candidates_sorted_from; [ exact Hs | lia ].
Qed.

(** C2.  For an ascending sequence of average ranks, the grouper records
    for each index [i] that has an eligible partner the pair
    [(averageRanks[i], averageRanks[j_max])] with [j_max] the farthest
    eligible index, drops the other indices, and, scanning the remaining
    candidates in anchor order, keeps the first one and then each
    candidate whose high endpoint exceeds that of the candidate kept
    last. *)
Theorem join_alg_cliques (avranks : list Q) (cd : Q) :
  StronglySorted Qle avranks ->
  Forall (fun r => 0 <= r) avranks ->
  candidate_pairs avranks (length avranks) cd = Ok (candidates avranks cd) /\
  (candidates avranks cd <> [] ->
   exists g,
     _join_alg avranks (length avranks) cd = Ok g /\
     group_rows g = merge_cliques (candidates avranks cd)).
Proof.
  intros Hs Hpos.
  pose proof (candidate_pairs_spec avranks cd Hpos) as Hsets.
  split; [ exact Hsets | ].
  intros Hne. unfold _join_alg. rewrite Hsets. cbn [bind].
  pose proof (candidates_sorted avranks cd Hs) as Hsorted.
  destruct (candidates avranks cd) as [ | p rest ]; [ congruence | ].
  destruct (group_pairs_chain p rest) as (g & Hg & Hrows).
  exists g. split; [ exact Hg | ].
  rewrite Hrows. simpl. f_equal.
  apply chain_merge; [ exact Hsorted | reflexivity ].
Qed.

(** The partner recorded for an anchor is eligible, and no index beyond
    it is. *)
Lemma farthest_partner_spec (avranks : list Q) (cd : Q) (i j : nat) :
  farthest_partner avranks cd i = Some j ->
  (j < length avranks)%nat /\
  (0 < nth j avranks 0 - nth i avranks 0 /\
   nth j avranks 0 - nth i avranks 0 < cd) /\
  forall j', (j < j' < length avranks)%nat ->
    eligible avranks cd i j' = false.
Proof.
  intros H. apply find_rev_seq in H. destruct H as (Hlt & He & Hmax).
  split; [ exact Hlt | ]. split; [ now apply eligible_iff | exact Hmax ].
Qed.

Lemma farthest_partner_none (avranks : list Q) (cd : Q) (i : nat) :
  farthest_partner avranks cd i = None <->
  forall j, (j < length avranks)%nat -> eligible avranks cd i j = false.
Proof.
  unfold farthest_partner. split.
  - intros H j Hj.
    apply (find_none _ _ H). apply in_rev. rewrite rev_involutive.
    apply in_seq. lia.
  - intros H.
    destruct (find (eligible avranks cd i) (rev (seq 0 (length avranks))))
      as [j | ] eqn:Hf; [ | reflexivity ].
    apply find_rev_seq in Hf. destruct Hf as (Hlt & He & _).
    rewrite (H j Hlt) in He. discriminate.
Qed.

(** C4, at the failing input: no pair of [1, 2, 3] lies within
    [cd = 1/2], and the grouper raises instead of returning no clique. *)
Theorem join_alg_no_partner_raises :
  _join_alg [1; 2; 3] 3 (1 # 2) = Err IndexError.
Proof. reflexivity. Qed.

(** Whenever no algorithm has an eligible partner, [sets] is empty and
    reading its first row fails. *)
Lemma join_alg_empty (avranks : list Q) (cd : Q) :
  Forall (fun r => 0 <= r) avranks ->
  candidates avranks cd = [] ->
  _join_alg avranks (length avranks) cd = Err IndexError.
Proof.
  intros Hpos He. unfold _join_alg.
  rewrite (candidate_pairs_spec avranks cd Hpos), He. reflexivity.
Qed.

(** ** The critical difference *)

Section CriticalDifference.

Variable get_tukeyQcrit : Z -> Z -> Q -> result Q.
Variable np_sqrt : Q -> Q.

(** The square root is a function of the number, not of the fraction
    that denotes it. *)
Hypothesis np_sqrt_compat : forall x y, x == y -> np_sqrt x == np_sqrt y.

Lemma py_div_nonzero (x y : Q) : ~ y == 0 -> py_div x y = Ok (x / y).
Proof.
  intros H. unfold py_div.
  destruct (Qeq_boolP y 0); [ contradiction | reflexivity ].
Qed.

Lemma six_datasets_nonzero (n : Z) : (n <> 0)%Z -> ~ 6 * inject_Z n == 0.
Proof.
  intros Hn H. apply Hn.
  assert (H' : inject_Z n == 0) by lra.
  unfold Qeq, inject_Z in H'. simpl in H'. lia.
Qed.

(** C5.  For valid arguments the critical difference is
    [(Q(k, k*(n-1), alpha) / sqrt 2) * sqrt (k*(k+1) / (6*n))], [Q] being
    the critical value that the table collaborator returns for [k]
    groups and [k*(n-1)] degrees of freedom. *)
Theorem NemenyiCD_formula (alpha : Q) (k n : Z) (q : Q) :
  (1 <= n)%Z ->
  get_tukeyQcrit k (k * (n - 1))%Z alpha = Ok q ->
  exists cd,
    NemenyiCD get_tukeyQcrit np_sqrt alpha k n = Ok cd /\
    cd == (q / np_sqrt 2) *
          np_sqrt (inject_Z k * (inject_Z k + 1) / (6 * inject_Z n)).
Proof.
  intros Hn Hq. unfold NemenyiCD. rewrite Hq. cbn [bind].
  rewrite py_div_nonzero by (apply six_datasets_nonzero; lia).
  cbn [bind]. eexists. split; [ reflexivity | ].
  apply Qmult_comp; [ reflexivity | ].
  apply np_sqrt_compat.
  rewrite inject_Z_mult, inject_Z_plus. reflexivity.
Qed.

End CriticalDifference.

Section Validation.

Variable get_tukeyQcrit : Z -> Z -> Q -> result Q.
Variable np_sqrt : Q -> Q.

(** [NemenyiCD] hands [alpha] to the table: what the table raises is
    what the caller sees. *)
Lemma NemenyiCD_propagates (alpha : Q) (k n : Z) (e : error) :
  get_tukeyQcrit k (k * (n - 1))%Z alpha = Err e ->
  NemenyiCD get_tukeyQcrit np_sqrt alpha k n = Err e.
Proof. intros H. unfold NemenyiCD. now rewrite H. Qed.

(** C6.  With [alpha] outside [{0.01, 0.05}] no critical difference is
    computed.  [NemenyiCD] has no check of its own: its first step hands
    [alpha] to the table, which is implemented for the two levels only,
    and the exception of the table ends the call before the formula is
    evaluated, whatever the numbers of algorithms and datasets.
    [CDplot] raises its initialization exception before it calls
    [NemenyiCD], with nothing drawn. *)
Theorem NemenyiCD_rejects_alpha (alpha : Q) (k n : Z) :
  (forall k' df a,
     supported_alpha a = false -> exists e, get_tukeyQcrit k' df a = Err e) ->
  supported_alpha alpha = false ->
  (exists e,
     get_tukeyQcrit k (k * (n - 1))%Z alpha = Err e /\
     NemenyiCD get_tukeyQcrit np_sqrt alpha k n = Err e) /\
  (forall results alg_names,
     CDplot get_tukeyQcrit np_sqrt results alpha alg_names =
     ([], Err (PyException alpha_message))).
Proof.
  intros Htable Halpha. split.
  - destruct (Htable k (k * (n - 1))%Z alpha Halpha) as [e He].
    exists e. split; [ exact He | ].
    now apply NemenyiCD_propagates.
  - intros results alg_names. unfold CDplot. rewrite Halpha. reflexivity.
Qed.

(** C7, as the code has it.  [NemenyiCD] checks neither the number of
    algorithms nor the number of datasets: it asks the table first and
    passes its failure on; with an answer, it divides, which raises for
    zero datasets and returns a critical difference otherwise. *)
Theorem NemenyiCD_no_validation (alpha : Q) (k n : Z) :
  match get_tukeyQcrit k (k * (n - 1))%Z alpha with
  | Err e => NemenyiCD get_tukeyQcrit np_sqrt alpha k n = Err e
  | Ok q =>
      if (n =? 0)%Z
      then NemenyiCD get_tukeyQcrit np_sqrt alpha k n = Err ZeroDivisionError
      else NemenyiCD get_tukeyQcrit np_sqrt alpha k n =
           Ok (q / np_sqrt 2 *
               np_sqrt (inject_Z (k * (k + 1)) / (6 * inject_Z n)))
  end.
Proof.
  unfold NemenyiCD.
  destruct (get_tukeyQcrit k (k * (n - 1))%Z alpha) as [q | e];
    cbn [bind]; [ | reflexivity ].
  destruct (Z.eqb_spec n 0) as [-> | Hn].
  - reflexivity.
  - rewrite py_div_nonzero by (now apply six_datasets_nonzero).
    reflexivity.
Qed.

End Validation.

(** C7, counterexample: with one algorithm and ten datasets a critical
    difference is returned. *)
Lemma NemenyiCD_single_algorithm :
  exists cd,
    NemenyiCD sample_tukey sample_sqrt (5 # 100) 1 10 = Ok cd /\ 0 < cd.
Proof. eexists. split; [ reflexivity | reflexivity ]. Qed.

(** ** The split of the sorted algorithms *)

Lemma Qfloor_half (k : Z) : Qfloor (inject_Z k / 2) = (k / 2)%Z.
Proof.
  unfold Qfloor, Qdiv, Qmult, Qinv, inject_Z. simpl.
  now rewrite Z.mul_1_r.
Qed.

Lemma half_remainder (k : Z) :
  inject_Z k / 2 - inject_Z (k / 2) == inject_Z (k mod 2) / 2.
Proof.
  rewrite (Z.div_mod k 2) at 1 by lia.
  rewrite inject_Z_plus, inject_Z_mult. change (inject_Z 2) with 2. field.
Qed.

(** [np.round] of a half: even quotients stay, odd ones go up. *)
Lemma np_round_half (k : Z) :
  np_round (inject_Z k / 2) =
  if Z.even k then (k / 2)%Z
  else if Z.even (k / 2) then (k / 2)%Z else (k / 2 + 1)%Z.
Proof.
  unfold np_round. rewrite Qfloor_half.
  pose proof (half_remainder k) as Hr.
  rewrite Zmod_even in Hr.
  destruct (Z.even k).
  - destruct (Qlt_boolP (inject_Z k / 2 - inject_Z (k / 2)) (1 # 2)) as [_ | N];
      [ reflexivity | ].
    exfalso. apply N. rewrite Hr. reflexivity.
  - destruct (Qlt_boolP (inject_Z k / 2 - inject_Z (k / 2)) (1 # 2)) as [L | _].
    + exfalso. rewrite Hr in L. revert L. apply Qle_not_lt. discriminate.
    + destruct (Qlt_boolP (1 # 2) (inject_Z k / 2 - inject_Z (k / 2)))
        as [L | _]; [ | reflexivity ].
      exfalso. rewrite Hr in L. revert L. apply Qle_not_lt. discriminate.
Qed.

Lemma split_point_odd (k : nat) :
  Nat.odd k = true -> (k < 511)%nat ->
  split_point k =
  if (Z.of_nat k mod 4 =? 3)%Z then ((Z.of_nat k + 1) / 2)%Z
  else ((Z.of_nat k - 1) / 2)%Z.
Proof.
  intros Hodd Hk. unfold split_point, of_nat, astype_uint8.
  rewrite np_round_half.
  assert (Hkz : Z.odd (Z.of_nat k) = true).
  { rewrite <- Hodd. clear. induction k as [ | k IH ];
      [ reflexivity | ].
    rewrite Nat2Z.inj_succ, Z.odd_succ, Nat.odd_succ.
    rewrite <- Z.negb_odd, <- Nat.negb_odd, IH. reflexivity. }
  rewrite <- Z.negb_odd, Hkz. cbn [negb].
  set (z := Z.of_nat k) in *.
  assert (Hz : (0 <= z < 511)%Z) by (unfold z; lia).
  apply Z.odd_spec in Hkz. destruct Hkz as [m Hm].
  assert (Hhalf : (z / 2 = m)%Z)
    by (symmetry; apply (Z.div_unique z 2 m 1); lia).
  rewrite Hhalf.
  destruct (Z.even m) eqn:Em.
  - apply Z.even_spec in Em. destruct Em as [p Hp].
    assert (H4 : (z mod 4 = 1)%Z)
      by (symmetry; apply (Z.mod_unique z 4 p 1); lia).
    rewrite H4. cbn [Z.eqb Pos.eqb].
    rewrite Z.mod_small by lia.
    apply (Z.div_unique (z - 1) 2 m 0); lia.
  - rewrite <- Z.negb_odd in Em. apply negb_false_iff in Em.
    apply Z.odd_spec in Em. destruct Em as [p Hp].
    assert (H4 : (z mod 4 = 3)%Z)
      by (symmetry; apply (Z.mod_unique z 4 p 3); lia).
    rewrite H4. cbn [Z.eqb Pos.eqb].
    rewrite Z.mod_small by lia.
    apply (Z.div_unique (z + 1) 2 (m + 1) 0); lia.
Qed.

(** C9, as the code has it.  For an odd number [k < 511] of algorithms
    the left half holds [ceil(k/2)] of them when [k mod 4 = 3] and
    [floor(k/2)] when [k mod 4 = 1]; the right half holds the others. *)
Theorem split_algorithms_odd (k : nat) (avranks : list Q) :
  length avranks = k -> Nat.odd k = true -> (k < 511)%nat ->
  let '(leftalg, rightalg) := split_algorithms k avranks in
  Z.of_nat (length leftalg) =
    (if (Z.of_nat k mod 4 =? 3)%Z then (Z.of_nat k + 1) / 2
     else (Z.of_nat k - 1) / 2)%Z /\
  (length leftalg + length rightalg = k)%nat.
Proof.
  intros Hlen Hodd Hk. unfold split_algorithms.
  rewrite (split_point_odd k Hodd Hk).
  rewrite length_firstn, length_skipn, Hlen.
  assert (Hk1 : (1 <= k)%nat) by (destruct k; [ discriminate | lia ]).
  destruct (Z.of_nat k mod 4 =? 3)%Z.
  - assert (Hb : (0 <= (Z.of_nat k + 1) / 2 <= Z.of_nat k)%Z)
      by (split; [ apply Z.div_pos | apply Z.div_le_upper_bound ]; lia).
    split; lia.
  - assert (Hb : (0 <= (Z.of_nat k - 1) / 2 <= Z.of_nat k)%Z)
      by (split; [ apply Z.div_pos | apply Z.div_le_upper_bound ]; lia).
    split; lia.
Qed.

(** C9, counterexample: of five algorithms the left half receives two. *)
Lemma split_five :
  length (fst (split_algorithms 5 [1; 2; 3; 4; 5])) = 2%nat /\
  length (snd (split_algorithms 5 [1; 2; 3; 4; 5])) = 3%nat /\
  Qceiling (5 / 2) = 3%Z.
Proof. repeat split. Qed.

(** ** Average ranks lie between [1] and the number of algorithms *)

Lemma of_nat_le (a b : nat) : (a <= b)%nat -> of_nat a <= of_nat b.
Proof.
  intros H. unfold of_nat. rewrite <- Zle_Qle. lia.
Qed.

Lemma of_nat_plus (a b : nat) : of_nat (a + b) == of_nat a + of_nat b.
Proof. unfold of_nat. now rewrite Nat2Z.inj_add, inject_Z_plus. Qed.

Lemma rank_delta_bounds (col : list Q) (x : Q) :
  (0 < count_eq col x)%nat ->
  1 <= 1 + rank_delta col x /\ 1 + rank_delta col x <= of_nat (length col).
Proof.
  intros Hpos. unfold rank_delta.
  pose proof (of_nat_le _ _ (count_gt_eq_le col x)) as Hle.
  rewrite of_nat_plus in Hle.
  pose proof (of_nat_le 1 _ Hpos) as H1. change (of_nat 1) with 1 in H1.
  pose proof (of_nat_le 0 (count_gt col x) (Nat.le_0_l _)) as H0.
  change (of_nat 0) with 0 in H0.
  split; lra.
Qed.

Lemma ranks_cell_bounds (data : ndarray2) :
  wf_array data ->
  exists R,
    ranks data = Ok R /\
    has_shape R (length (arr_rows data)) (n_cols data) /\
    forall i j, (i < length (arr_rows data))%nat -> (j < n_cols data)%nat ->
      1 <= cell R i j /\ cell R i j <= of_nat (length (arr_rows data)).
Proof.
  intros Hwf. destruct (ranks_cells data Hwf) as (R & HR & Hsh & Hcell).
  exists R. split; [ exact HR | ]. split; [ exact Hsh | ].
  intros i j Hi Hj. rewrite Hcell by assumption.
  rewrite <- (column_length (arr_rows data) j).
  apply rank_delta_bounds.
  rewrite <- nth_column. apply count_eq_nth. now rewrite column_length.
Qed.

Lemma Qsum_bounds (lo hi : Q) (l : list Q) :
  Forall (fun x => lo <= x /\ x <= hi) l ->
  lo * of_nat (length l) <= Qsum l /\ Qsum l <= hi * of_nat (length l).
Proof.
  induction 1 as [ | x l [Hlo Hhi] _ [IHlo IHhi] ]; simpl.
  - change (of_nat 0) with 0. split; lra.
  - change (S (length l)) with (1 + length l)%nat.
    rewrite of_nat_plus. change (of_nat 1) with 1. split; lra.
Qed.

Lemma mean_bounds (lo hi : Q) (l : list Q) :
  l <> [] ->
  Forall (fun x => lo <= x /\ x <= hi) l ->
  lo <= Qsum l / of_nat (length l) /\ Qsum l / of_nat (length l) <= hi.
Proof.
  intros Hne H. destruct (Qsum_bounds lo hi l H) as [Hlo Hhi].
  assert (Hpos : 0 < of_nat (length l)).
  { destruct l as [ | x l ]; [ congruence | ].
    unfold of_nat. simpl length. rewrite <- (Zlt_Qlt 0). lia. }
  split.
  - apply Qle_shift_div_l; assumption.
  - apply Qle_shift_div_r; assumption.
Qed.

Lemma row_cells (M : matrix) (k n : nat) (P : Q -> Prop) :
  has_shape M k n ->
  (forall i j, (i < k)%nat -> (j < n)%nat -> P (cell M i j)) ->
  Forall (Forall P) M.
Proof.
  intros Hsh Hcell. apply Forall_forall. intros r Hr.
  destruct (In_nth M r [] Hr) as (i & Hi & <-).
  destruct Hsh as [Hk Hn]. apply Forall_forall. intros x Hx.
  destruct (In_nth _ x 0 Hx) as (j & Hj & <-).
  apply Hcell; [ lia | ].
  rewrite Forall_forall in Hn.
  rewrite <- (Hn (nth i M [])); [ exact Hj | apply nth_In; lia ].
Qed.

Lemma np_mean_rows_bounds (M : matrix) (k n : nat) (lo hi : Q) :
  has_shape M k n -> (1 <= n)%nat ->
  (forall i j, (i < k)%nat -> (j < n)%nat ->
     lo <= cell M i j /\ cell M i j <= hi) ->
  Forall (fun a => lo <= a /\ a <= hi) (np_mean_rows M).
Proof.
  intros Hsh Hn Hcell.
  pose proof (row_cells M k n (fun x => lo <= x /\ x <= hi) Hsh Hcell)
    as Hrows.
  destruct Hsh as [_ Hlen]. unfold np_mean_rows.
  apply Forall_map. rewrite Forall_forall in *.
  intros r Hr. apply mean_bounds.
  - intros ->. specialize (Hlen [] Hr). simpl in Hlen. lia.
  - now apply Hrows.
Qed.

Lemma np_mean_rows_length (M : matrix) :
  length (np_mean_rows M) = length M.
Proof. unfold np_mean_rows. apply length_map. Qed.

(** ** [np_argsort] returns a permutation of the positions *)

Lemma insert_by_key_perm (p : Q * nat) (l : list (Q * nat)) :
  Permutation (insert_by_key p l) (p :: l).
Proof.
  induction l as [ | q t IH ]; simpl; [ reflexivity | ].
  destruct (Qle_bool (fst p) (fst q)); [ reflexivity | ].
  rewrite IH. apply perm_swap.
Qed.

Lemma sort_by_key_perm (l : list (Q * nat)) :
  Permutation (fold_right insert_by_key [] l) l.
Proof.
  induction l as [ | p l IH ]; simpl; [ reflexivity | ].
  rewrite insert_by_key_perm. now constructor.
Qed.

Lemma map_snd_combine {A B : Type} (l : list A) (l' : list B) :
  length l = length l' -> map snd (combine l l') = l'.
Proof.
  revert l'. induction l as [ | a l IH ]; intros [ | b l' ] H;
    simpl in *; try discriminate; [ reflexivity | ].
  f_equal. apply IH. congruence.
Qed.

Lemma np_argsort_perm (a : list Q) :
  Permutation (np_argsort a) (seq 0 (length a)).
Proof.
  unfold np_argsort.
  rewrite (Permutation_map snd (sort_by_key_perm _)).
  rewrite map_snd_combine; [ reflexivity | now rewrite length_seq ].
Qed.

Lemma np_argsort_range (a : list Q) :
  Forall (fun i => (i < length a)%nat) (np_argsort a).
Proof.
  apply Forall_forall. intros i Hi.
  apply (Permutation_in _ (np_argsort_perm a)) in Hi.
  apply in_seq in Hi. lia.
Qed.

Lemma np_argsort_length (a : list Q) : length (np_argsort a) = length a.
Proof.
  rewrite (Permutation_length (np_argsort_perm a)). apply length_seq.
Qed.

Lemma astype_uint8_small (z : Z) : (0 <= z < 256)%Z -> astype_uint8 z = z.
Proof. intros H. unfold astype_uint8. now apply Z.mod_small. Qed.

Lemma sort_indices_range (a : list Q) :
  Forall (fun i => (i < length a)%nat) (sort_indices a).
Proof.
  unfold sort_indices. apply Forall_map.
  eapply Forall_impl; [ | apply np_argsort_range ].
  intros i Hi. cbv beta in *. unfold astype_uint8.
  assert (H1 : (Z.of_nat i mod 256 <= Z.of_nat i)%Z)
    by (apply Z.mod_le; lia).
  assert (H2 : (0 <= Z.of_nat i mod 256 < 256)%Z)
    by (apply Z.mod_pos_bound; lia).
  lia.
Qed.

Lemma sort_indices_length (a : list Q) : length (sort_indices a) = length a.
Proof. unfold sort_indices. rewrite length_map. apply np_argsort_length. Qed.

(** With at most 256 positions the cast of the permutation is exact. *)
Lemma sort_indices_exact (a : list Q) :
  (length a <= 256)%nat -> sort_indices a = np_argsort a.
Proof.
  intros Hlen. unfold sort_indices.
  rewrite <- (map_id (np_argsort a)) at 2.
  apply map_ext_in. intros i Hi.
  pose proof (np_argsort_range a) as Hr. rewrite Forall_forall in Hr.
  specialize (Hr i Hi). rewrite astype_uint8_small by lia.
  apply Nat2Z.id.
Qed.

Lemma take_in_range {A : Type} (a : list A) (d : A) (indices : list nat) :
  Forall (fun i => (i < length a)%nat) indices ->
  take a indices = Ok (map (fun i => nth i a d) indices).
Proof.
  induction 1 as [ | i t Hi _ IH ]; simpl; [ reflexivity | ].
  unfold index. rewrite (nth_error_nth' a d Hi). cbn [bind].
  now rewrite IH.
Qed.

Lemma Forall_take (P : Q -> Prop) (a : list Q) (indices : list nat) :
  Forall P a -> Forall (fun i => (i < length a)%nat) indices ->
  Forall P (map (fun i => nth i a 0) indices).
Proof.
  intros Ha Hi. apply Forall_map.
  eapply Forall_impl; [ | exact Hi ].
  intros i Hlt. simpl. rewrite Forall_forall in Ha. now apply Ha, nth_In.
Qed.

(** ** Extremes *)

Lemma fold_q_max_in (t : list Q) (x : Q) : In (fold_left q_max t x) (x :: t).
Proof.
  revert x. induction t as [ | y t IH ]; intros x; simpl; [ now left | ].
  destruct (IH (q_max x y)) as [H | H]; [ | now right; right ].
  rewrite <- H. unfold q_max. destruct (Qle_bool x y); auto.
Qed.

Lemma fold_q_min_in (t : list Q) (x : Q) : In (fold_left q_min t x) (x :: t).
Proof.
  revert x. induction t as [ | y t IH ]; intros x; simpl; [ now left | ].
  destruct (IH (q_min x y)) as [H | H]; [ | now right; right ].
  rewrite <- H. unfold q_min. destruct (Qle_bool x y); auto.
Qed.

Lemma np_max_in (P : Q -> Prop) (l : list Q) :
  l <> [] -> Forall P l -> exists m, np_max l = Ok m /\ P m.
Proof.
  intros Hne H. destruct l as [ | x t ]; [ congruence | ].
  exists (fold_left q_max t x). split; [ reflexivity | ].
  rewrite Forall_forall in H. apply H, fold_q_max_in.
Qed.

Lemma np_min_in (P : Q -> Prop) (l : list Q) :
  l <> [] -> Forall P l -> exists m, np_min l = Ok m /\ P m.
Proof.
  intros Hne H. destruct l as [ | x t ]; [ congruence | ].
  exists (fold_left q_min t x). split; [ reflexivity | ].
  rewrite Forall_forall in H. apply H, fold_q_min_in.
Qed.

Lemma Qceiling_bounds (x : Q) (k : nat) :
  1 <= x -> x <= of_nat k -> (1 <= Qceiling x <= Z.of_nat k)%Z.
Proof.
  intros Hlo Hhi. split.
  - rewrite <- (Qceiling_Z 1). now apply Qceiling_resp_le.
  - rewrite <- (Qceiling_Z (Z.of_nat k)). now apply Qceiling_resp_le.
Qed.

Lemma Qfloor_bounds (x : Q) (k : nat) :
  1 <= x -> x <= of_nat k -> (1 <= Qfloor x <= Z.of_nat k)%Z.
Proof.
  intros Hlo Hhi. split.
  - rewrite <- (Qfloor_Z 1). now apply Qfloor_resp_le.
  - rewrite <- (Qfloor_Z (Z.of_nat k)). now apply Qfloor_resp_le.
Qed.

(** ** The casts to [uint8] *)

Lemma sorted_average_ranks_bounds (data : ndarray2) :
  wf_array data -> (1 <= n_cols data)%nat ->
  exists avranks,
    sorted_average_ranks data = Ok avranks /\
    length avranks = length (arr_rows data) /\
    Forall (fun a => 1 <= a /\ a <= of_nat (length (arr_rows data))) avranks.
Proof.
  intros Hwf Hn.
  destruct (ranks_cell_bounds data Hwf) as (R & HR & Hsh & Hcell).
  pose proof (np_mean_rows_bounds R _ _ _ _ Hsh Hn Hcell) as Hav.
  unfold sorted_average_ranks. rewrite HR. cbn [bind].
  rewrite (take_in_range _ 0 _ (sort_indices_range _)).
  eexists. split; [ reflexivity | ]. split.
  - rewrite length_map, sort_indices_length, np_mean_rows_length.
    now destruct Hsh.
  - apply Forall_take; [ exact Hav | apply sort_indices_range ].
Qed.

Lemma np_round_half_bounds (k : nat) :
  (0 <= np_round (of_nat k / 2) <= Z.of_nat k / 2 + 1)%Z.
Proof.
  unfold of_nat. rewrite np_round_half.
  assert (H : (0 <= Z.of_nat k / 2)%Z) by (apply Z.div_pos; lia).
  destruct (Z.even (Z.of_nat k)); [ lia | ].
  destruct (Z.even (Z.of_nat k / 2)); lia.
Qed.

(** C10.  [CDplot] casts the sorting permutation, the split index and the
    two axis bounds to [uint8].  With at most 255 algorithms none of the
    casts changes a value; with 256 algorithms the cast of the upper axis
    bound can wrap to [0]. *)
Theorem uint8_casts_exact :
  (forall data : ndarray2,
     wf_array data ->
     (1 <= length (arr_rows data) <= 255)%nat -> (1 <= n_cols data)%nat ->
     exists R avranks hi lo,
       ranks data = Ok R /\
       sort_indices (np_mean_rows R) = np_argsort (np_mean_rows R) /\
       sorted_average_ranks data = Ok avranks /\
       split_point (length (arr_rows data)) =
         np_round (of_nat (length (arr_rows data)) / 2) /\
       np_max avranks = Ok hi /\ highest_rank avranks = Ok (Qceiling hi) /\
       np_min avranks = Ok lo /\ lowest_rank avranks = Ok (Qfloor lo)) /\
  (exists avranks hi,
     wf_array wide_example /\
     sorted_average_ranks wide_example = Ok avranks /\
     np_max avranks = Ok hi /\ Qceiling hi = 256%Z /\
     highest_rank avranks = Ok 0%Z).
Proof.
  split.
  - intros data Hwf Hk Hn.
    destruct (ranks_cell_bounds data Hwf) as (R & HR & Hsh & _).
    destruct (sorted_average_ranks_bounds data Hwf Hn)
      as (avranks & Hav & Hlen & Hb).
    assert (Hne : avranks <> [])
      by (intros ->; simpl in Hlen; lia).
    destruct (np_max_in _ avranks Hne Hb) as (hi & Hhi & Hhib).
    destruct (np_min_in _ avranks Hne Hb) as (lo & Hlo & Hlob).
    exists R, avranks, hi, lo.
    split; [ exact HR | ]. split.
    { apply sort_indices_exact. rewrite np_mean_rows_length.
      destruct Hsh as [-> _]. lia. }
    split; [ exact Hav | ]. split.
    { unfold split_point. apply astype_uint8_small.
      pose proof (np_round_half_bounds (length (arr_rows data))) as Hr.
      assert (Z.of_nat (length (arr_rows data)) / 2 < 128)%Z
        by (apply Z.div_lt_upper_bound; lia).
      lia. }
    split; [ exact Hhi | ]. split.
    { unfold highest_rank. rewrite Hhi. cbn [bind]. f_equal.
      apply astype_uint8_small.
      pose proof (Qceiling_bounds hi _ (proj1 Hhib) (proj2 Hhib)). lia. }
    split; [ exact Hlo | ].
    unfold lowest_rank. rewrite Hlo. cbn [bind]. f_equal.
    apply astype_uint8_small.
    pose proof (Qfloor_bounds lo _ (proj1 Hlob) (proj2 Hlob)). lia.
  - assert (Hwf : wf_array wide_example).
    { unfold wf_array, has_shape. split; [ reflexivity | ].
      apply Forall_forall. intros r Hr. unfold wide_example in Hr.
      cbn [arr_rows] in Hr. apply in_map_iff in Hr.
      destruct Hr as (i & <- & _). reflexivity. }
    destruct (sorted_average_ranks wide_example) as [avranks | e] eqn:Hav;
      [ | vm_compute in Hav; discriminate ].
    destruct (np_max avranks) as [hi | e] eqn:Hhi.
    + exists avranks, hi. split; [ exact Hwf | ]. split; [ reflexivity | ].
      split; [ exact Hhi | ].
      assert (Hc : (sorted <- sorted_average_ranks wide_example ;;
                    m <- np_max sorted ;; Ok (Qceiling m)) = Ok 256%Z)
        by (vm_compute; reflexivity).
      rewrite Hav in Hc. cbn [bind] in Hc. rewrite Hhi in Hc.
      cbn [bind] in Hc. inversion Hc as [Hc'].
      split; [ reflexivity | ].
      unfold highest_rank. rewrite Hhi. cbn [bind]. now rewrite Hc'.
    + exfalso.
      assert (Hc : (sorted <- sorted_average_ranks wide_example ;;
                    m <- np_max sorted ;; Ok (Qceiling m)) = Ok 256%Z)
        by (vm_compute; reflexivity).
      rewrite Hav in Hc. cbn [bind] in Hc. rewrite Hhi in Hc. discriminate.
Qed.

(** ** The axis when all average ranks coincide *)

Lemma plot_bind_lift_ok {A B : Type} (a : A) (k : A -> plot B) :
  plot_bind (lift (Ok a)) k = k a.
Proof. unfold plot_bind, lift. simpl. now destruct (k a). Qed.

Lemma fst_plot_bind_ok {A B : Type} (m : plot A) (a : A) (k : A -> plot B) :
  snd m = Ok a -> fst (plot_bind m k) = fst m ++ fst (k a).
Proof. intros H. unfold plot_bind. now rewrite H. Qed.

(** With equal bounds the single tick of the axis is placed at [0.0 / 0]. *)
Lemma draw_axis_degenerate (z : Z) :
  draw_axis z z =
  ([Hlines stop (Finite sleft) (Finite sright);
    Vlines NaN stop (stop + (5 # 100));
    Text NaN (stop + (6 # 100)) (TickLabel (z + 0))],
   Ok tt).
Proof.
  unfold draw_axis, x_position. rewrite Z.sub_diag. reflexivity.
Qed.

Lemma all_equal_extremes (avranks : list Q) (r : Z) :
  avranks <> [] ->
  Forall (fun a => a == inject_Z r) avranks ->
  highest_rank avranks = Ok (astype_uint8 r) /\
  lowest_rank avranks = Ok (astype_uint8 r).
Proof.
  intros Hne H.
  destruct (np_max_in _ avranks Hne H) as (hi & Hhi & Ehi).
  destruct (np_min_in _ avranks Hne H) as (lo & Hlo & Elo).
  unfold highest_rank, lowest_rank. rewrite Hhi, Hlo. cbn [bind].
  rewrite Ehi, Elo. now rewrite Qceiling_Z, Qfloor_Z.
Qed.

Section DegenerateRange.

Variable get_tukeyQcrit : Z -> Z -> Q -> result Q.
Variable np_sqrt : Q -> Q.

(** C3, as the code has it.  When all average ranks equal one integer,
    so that the floor of the minimum is the ceiling of the maximum,
    [CDplot] makes no check of the range: it opens the figure and draws
    the axis, and the tick and its label are placed at [nan], the result
    of dividing by the zero range. *)
Theorem CDplot_degenerate_axis (data : ndarray2) (alpha : Q)
  (alg_names : option (list string)) (r : Z) (cd : Q) :
  wf_array data ->
  (1 <= length (arr_rows data))%nat ->
  supported_alpha alpha = true ->
  NemenyiCD get_tukeyQcrit np_sqrt alpha
    (Z.of_nat (length (arr_rows data))) (Z.of_nat (n_cols data)) = Ok cd ->
  (forall R, ranks data = Ok R ->
             Forall (fun a => a == inject_Z r) (np_mean_rows R)) ->
  exists height rest,
    fst (CDplot get_tukeyQcrit np_sqrt (Nd2 data) alpha alg_names) =
    Figure 6 height ::
    Hlines stop (Finite sleft) (Finite sright) ::
    Vlines NaN stop (stop + (5 # 100)) ::
    Text NaN (stop + (6 # 100)) (TickLabel (astype_uint8 r)) :: rest.
Proof.
  intros Hwf Hk Halpha Hcd Hall.
  destruct (ranks_cells data Hwf) as (R & HR & Hsh & _).
  specialize (Hall R HR).
  unfold CDplot. rewrite Halpha. cbn [negb shape].
  rewrite Hcd, plot_bind_lift_ok, HR, plot_bind_lift_ok.
  rewrite (take_in_range _ 0 _ (sort_indices_range _)), plot_bind_lift_ok.
  set (avranks := map _ (sort_indices (np_mean_rows R))).
  assert (Hav : Forall (fun a => a == inject_Z r) avranks)
    by (apply Forall_take; [ exact Hall | apply sort_indices_range ]).
  assert (Hne : avranks <> []).
  { intros E. apply (f_equal (@length Q)) in E. unfold avranks in E.
    rewrite length_map, sort_indices_length, np_mean_rows_length in E.
    destruct Hsh as [Hlen _]. simpl in E. lia. }
  destruct (all_equal_extremes avranks r Hne Hav) as [Hhi Hlo].
  destruct (split_algorithms (length (arr_rows data)) avranks)
    as [leftalg rightalg].
  rewrite Hhi, plot_bind_lift_ok, Hlo, plot_bind_lift_ok.
  eexists. eexists.
  rewrite (fst_plot_bind_ok _ tt) by reflexivity.
  cbn [draw fst app].
  rewrite (fst_plot_bind_ok _ tt)
    by (rewrite draw_axis_degenerate; reflexivity).
  rewrite draw_axis_degenerate, Z.add_0_r. cbn [fst app].
  reflexivity.
Qed.

End DegenerateRange.

(** C3, counterexample (scenario A of the specification): the three
    average ranks are all [2]; the run draws ticks and stems at [nan] and
    ends with the [IndexError] of the grouper. *)
Lemma CDplot_scenario_A :
  (exists avranks,
     sorted_average_ranks scenario_A = Ok avranks /\
     Forall (fun a => a == 2) avranks) /\
  snd (CDplot sample_tukey sample_sqrt (Nd2 scenario_A) (5 # 100) None) =
    Err IndexError /\
  In (Vlines NaN stop (stop + (5 # 100)))
     (fst (CDplot sample_tukey sample_sqrt (Nd2 scenario_A) (5 # 100) None)).
Proof.
  split; [ | split ].
  - eexists. split; [ vm_compute; reflexivity | ].
    repeat constructor.
  - vm_compute. reflexivity.
  - vm_compute. right. right. left. reflexivity.
Qed.

(** ** Instances on concrete inputs *)

Lemma sample_sqrt_compat (x y : Q) : x == y -> sample_sqrt x == sample_sqrt y.
Proof. intros H. unfold sample_sqrt. now rewrite H. Qed.

Lemma tie_example_wf : wf_array tie_example.
Proof. split; [ reflexivity | repeat constructor ]. Qed.

Lemma scenario_A_wf : wf_array scenario_A.
Proof. split; [ reflexivity | repeat constructor ]. Qed.

Lemma ranks_midrank_witness :
  wf_array tie_example /\
  exists R, ranks tie_example = Ok R /\
            cell R 0 0 == 5 # 2 /\ cell R 0 0 == cell R 1 0.
Proof.
  split; [ exact tie_example_wf | ].
  destruct (ranks_midrank tie_example tie_example_wf)
    as (R & HR & _ & Hcell & Hsame).
  exists R. split; [ exact HR | ]. split.
  - rewrite (Hcell 0%nat 0%nat); [ reflexivity | simpl; lia | simpl; lia ].
  - apply Hsame; simpl; try lia. reflexivity.
Defined.

Lemma ranks_permutation_witness :
  wf_array scenario_A /\
  exists R, ranks scenario_A = Ok R /\
    exists p, Permutation p [1; 2; 3]%nat /\
              Forall2 (fun r m => r == of_nat m) (column R 0) p.
Proof.
  split; [ exact scenario_A_wf | ].
  destruct (ranks_permutation scenario_A scenario_A_wf)
    as (R & HR & Hperm).
  - intros j Hj. simpl in Hj.
    destruct j as [ | [ | [ | j ] ] ]; try lia;
      repeat constructor.
  - exists R. split; [ exact HR | ].
    apply (Hperm 0%nat). simpl. lia.
Defined.

Lemma join_alg_cliques_witness :
  candidate_pairs [1; 15 # 10; 2; 3; 32 # 10; 5] 6 (11 # 10) =
    Ok [(1, 2); (15 # 10, 2); (2, 3); (3, 32 # 10)] /\
  exists g,
    _join_alg [1; 15 # 10; 2; 3; 32 # 10; 5] 6 (11 # 10) = Ok g /\
    group_rows g = [(1, 2); (2, 3); (3, 32 # 10)].
Proof.
  destruct (join_alg_cliques [1; 15 # 10; 2; 3; 32 # 10; 5] (11 # 10))
    as [Hsets Hgroup].
  - repeat constructor; discriminate.
  - repeat constructor; discriminate.
  - split; [ exact Hsets | ].
    apply Hgroup. discriminate.
Defined.

Lemma NemenyiCD_formula_witness :
  exists cd,
    NemenyiCD sample_tukey sample_sqrt (5 # 100) 3 3 = Ok cd /\
    cd == (4339 # 1000) / sample_sqrt 2 *
          sample_sqrt (inject_Z 3 * (inject_Z 3 + 1) / (6 * inject_Z 3)).
Proof.
  apply (NemenyiCD_formula sample_tukey sample_sqrt sample_sqrt_compat
           (5 # 100) 3 3 (4339 # 1000)).
  - lia.
  - reflexivity.
Defined.

Lemma two_level_tukey_levels (k df : Z) (alpha : Q) :
  supported_alpha alpha = false ->
  exists e, two_level_tukey k df alpha = Err e.
Proof.
  intros H. exists ValueError. unfold two_level_tukey. now rewrite H.
Qed.

Lemma NemenyiCD_rejects_alpha_witness :
  (exists e,
     two_level_tukey 3 (3 * (3 - 1))%Z (1 # 10) = Err e /\
     NemenyiCD two_level_tukey sample_sqrt (1 # 10) 3 3 = Err e) /\
  (forall results alg_names,
     CDplot two_level_tukey sample_sqrt results (1 # 10) alg_names =
     ([], Err (PyException alpha_message))).
Proof.
  apply (NemenyiCD_rejects_alpha two_level_tukey sample_sqrt (1 # 10) 3 3).
  - exact two_level_tukey_levels.
  - reflexivity.
Defined.

Lemma split_algorithms_odd_witness :
  let '(leftalg, rightalg) := split_algorithms 7 [1; 2; 3; 4; 5; 6; 7] in
  Z.of_nat (length leftalg) = 4%Z /\
  (length leftalg + length rightalg = 7)%nat.
Proof.
  apply (split_algorithms_odd 7 [1; 2; 3; 4; 5; 6; 7]).
  - reflexivity.
  - reflexivity.
  - lia.
Defined.

Lemma uint8_casts_exact_witness :
  exists R avranks hi lo,
    ranks tie_example = Ok R /\
    sort_indices (np_mean_rows R) = np_argsort (np_mean_rows R) /\
    sorted_average_ranks tie_example = Ok avranks /\
    split_point 4 = np_round (of_nat 4 / 2) /\
    np_max avranks = Ok hi /\ highest_rank avranks = Ok (Qceiling hi) /\
    np_min avranks = Ok lo /\ lowest_rank avranks = Ok (Qfloor lo).
Proof.
  apply (proj1 uint8_casts_exact tie_example).
  - exact tie_example_wf.
  - simpl. lia.
  - simpl. lia.
Defined.

Lemma CDplot_degenerate_axis_witness :
  exists height rest,
    fst (CDplot sample_tukey sample_sqrt (Nd2 scenario_A) (5 # 100) None) =
    Figure 6 height ::
    Hlines stop (Finite sleft) (Finite sright) ::
    Vlines NaN stop (stop + (5 # 100)) ::
    Text NaN (stop + (6 # 100)) (TickLabel 2) :: rest.
Proof.
  destruct (NemenyiCD sample_tukey sample_sqrt (5 # 100) 3 3)
    as [cd | e] eqn:Hcd; [ | discriminate ].
  apply (CDplot_degenerate_axis sample_tukey sample_sqrt scenario_A
           (5 # 100) None 2 cd).
  - exact scenario_A_wf.
  - simpl. lia.
  - reflexivity.
  - exact Hcd.
  - intros R HR. vm_compute in HR. inversion HR; subst.
    repeat constructor.
Defined.

(** * Further properties of [ranks] *)

(** Column [j] of the result, entry by entry. *)
Lemma ranks_column_map (data : ndarray2) (R : matrix) (j : nat) :
  wf_array data -> ranks data = Ok R -> (j < n_cols data)%nat ->
  column R j =
  map (fun x => 1 + rank_delta (column (arr_rows data) j) x)
      (column (arr_rows data) j).
Proof.
  intros Hwf HR Hj.
  destruct (ranks_cells data Hwf) as (R' & HR' & Hsh & Hcell).
  rewrite HR in HR'. inversion HR'; subst R'. clear HR'.
  apply (nth_ext _ _ 0 0).
  - rewrite length_map, !column_length. now destruct Hsh.
  - intros i Hi. rewrite column_length in Hi.
    destruct Hsh as [Hlen _]. rewrite Hlen in Hi.
    rewrite nth_column, Hcell by assumption.
    rewrite (nth_map_in_range _ _ i 0) by (now rewrite column_length).
    now rewrite nth_column.
Qed.

(** X1.  Every rank lies between [1] and the number of algorithms. *)
Theorem ranks_within_bounds (data : ndarray2) :
  wf_array data ->
  exists R,
    ranks data = Ok R /\
    forall i j, (i < length (arr_rows data))%nat -> (j < n_cols data)%nat ->
      1 <= cell R i j /\ cell R i j <= of_nat (length (arr_rows data)).
Proof.
  intros Hwf. destruct (ranks_cell_bounds data Hwf) as (R & HR & _ & Hb).
  exists R. split; assumption.
Qed.

Lemma count_eq_pos_of_le (col : list Q) (x : Q) :
  (0 < count_eq col x)%nat -> 1 <= of_nat (count_eq col x).
Proof. intros H. change 1 with (of_nat 1). now apply of_nat_le. Qed.

(** X2.  A higher score gets a strictly better (smaller) rank: when
    [data[i][j] < data[i'][j]], the rank of row [i] in column [j] is
    strictly larger than that of row [i']. *)
Theorem ranks_antitone (data : ndarray2) :
  wf_array data ->
  exists R,
    ranks data = Ok R /\
    forall i i' j,
      (i < length (arr_rows data))%nat -> (i' < length (arr_rows data))%nat ->
      (j < n_cols data)%nat ->
      cell (arr_rows data) i j < cell (arr_rows data) i' j ->
      cell R i' j < cell R i j.
Proof.
  intros Hwf. destruct (ranks_cells data Hwf) as (R & HR & Hsh & Hcell).
  exists R. split; [ exact HR | ].
  intros i i' j Hi Hi' Hj Hlt. rewrite !Hcell by assumption.
  set (col := column (arr_rows data) j).
  set (x := cell (arr_rows data) i j) in *.
  set (y := cell (arr_rows data) i' j) in *.
  assert (Hx : (0 < count_eq col x)%nat).
  { unfold x, col. rewrite <- nth_column. apply count_eq_nth.
    now rewrite column_length. }
  assert (Hy : (0 < count_eq col y)%nat).
  { unfold y, col. rewrite <- nth_column. apply count_eq_nth.
    now rewrite column_length. }
  pose proof (of_nat_le _ _ (count_gt_strict col x y Hlt)) as Hs.
  rewrite of_nat_plus in Hs.
  pose proof (count_eq_pos_of_le col x Hx).
  pose proof (count_eq_pos_of_le col y Hy).
  unfold rank_delta. lra.
Qed.

(** ** The ranks of a column add up to [k (k + 1) / 2] *)

Lemma count_trichotomy (col : list Q) (x : Q) :
  (count_gt col x + count_lt col x + count_eq col x = length col)%nat.
Proof.
  unfold count_gt, count_lt, count_eq.
  induction col as [ | a t IH ]; simpl; [ reflexivity | ].
  destruct (Qlt_boolP x a) as [G | G], (Qlt_boolP a x) as [L | L],
           (Qeq_boolP a x) as [E | E]; simpl; try lia; exfalso.
  - apply (Qlt_irrefl x). now apply Qlt_trans with a.
  - apply (Qlt_irrefl x). now apply Qlt_trans with a.
  - rewrite E in G. now apply (Qlt_irrefl x).
  - rewrite E in L. now apply (Qlt_irrefl x).
  - destruct (Q_dec a x) as [[H | H] | H]; contradiction.
Qed.

Lemma list_sum_indicator {A : Type} (f : A -> bool) (g : A -> nat)
  (l : list A) :
  list_sum (map (fun x => ((if f x then 1 else 0) + g x)%nat) l) =
  (length (filter f l) + list_sum (map g l))%nat.
Proof.
  induction l as [ | a l IH ]; simpl; [ reflexivity | ].
  rewrite IH. destruct (f a); simpl; lia.
Qed.

Lemma list_sum_cons (a : nat) (l : list nat) :
  list_sum (a :: l) = (a + list_sum l)%nat.
Proof. reflexivity. Qed.

Lemma Qlt_bool_irrefl (x : Q) : Qlt_bool x x = false.
Proof.
  destruct (Qlt_boolP x x) as [H | _]; [ | reflexivity ].
  exfalso. now apply (Qlt_irrefl x).
Qed.

Lemma sum_count_gt_cons (a : Q) (t : list Q) :
  list_sum (map (count_gt (a :: t)) (a :: t)) =
  (count_gt t a + count_lt t a + list_sum (map (count_gt t) t))%nat.
Proof.
  cbn [map list_sum]. unfold count_gt at 1. cbn [filter].
  rewrite Qlt_bool_irrefl. fold (count_gt t a).
  rewrite (map_ext (count_gt (a :: t))
             (fun x => ((if Qlt_bool x a then 1 else 0) + count_gt t x)%nat)).
  - rewrite list_sum_cons.
    rewrite (list_sum_indicator (fun x => Qlt_bool x a) (count_gt t) t).
    fold (count_lt t a). lia.
  - intros x. unfold count_gt. cbn [filter].
    now destruct (Qlt_bool x a).
Qed.

Lemma sum_count_lt_cons (a : Q) (t : list Q) :
  list_sum (map (count_lt (a :: t)) (a :: t)) =
  (count_lt t a + count_gt t a + list_sum (map (count_lt t) t))%nat.
Proof.
  cbn [map list_sum]. unfold count_lt at 1. cbn [filter].
  rewrite Qlt_bool_irrefl. fold (count_lt t a).
  rewrite (map_ext (count_lt (a :: t))
             (fun x => ((if Qlt_bool a x then 1 else 0) + count_lt t x)%nat)).
  - rewrite list_sum_cons.
    rewrite (list_sum_indicator (fun x => Qlt_bool a x) (count_lt t) t).
    fold (count_gt t a). lia.
  - intros x. unfold count_lt. cbn [filter].
    now destruct (Qlt_bool a x).
Qed.

(** Each pair of unequal entries is counted once from either side. *)
Lemma sum_count_gt_lt (col : list Q) :
  list_sum (map (count_gt col) col) = list_sum (map (count_lt col) col).
Proof.
  induction col as [ | a t IH ]; [ reflexivity | ].
  rewrite sum_count_gt_cons, sum_count_lt_cons, IH. lia.
Qed.

Lemma list_sum_map_add {A : Type} (f g : A -> nat) (l : list A) :
  list_sum (map (fun x => (f x + g x)%nat) l) =
  (list_sum (map f l) + list_sum (map g l))%nat.
Proof.
  induction l as [ | a l IH ]; simpl; [ reflexivity | ]. rewrite IH. lia.
Qed.

Lemma list_sum_map_const {A : Type} (c : nat) (l : list A) :
  list_sum (map (fun _ => c) l) = (length l * c)%nat.
Proof.
  induction l as [ | a l IH ]; simpl; [ reflexivity | ]. rewrite IH. lia.
Qed.

Lemma sum_counts (col : list Q) :
  (2 * list_sum (map (count_gt col) col) + list_sum (map (count_eq col) col)
   = length col * length col)%nat.
Proof.
  pose proof (list_sum_map_const (length col) col) as Hk.
  rewrite <- (map_ext _ _ (count_trichotomy col)) in Hk.
  rewrite !list_sum_map_add in Hk.
  rewrite <- sum_count_gt_lt in Hk. lia.
Qed.

Lemma Qsum_cons (x : Q) (l : list Q) : Qsum (x :: l) = x + Qsum l.
Proof. reflexivity. Qed.

Lemma Qsum_ranks (col l : list Q) :
  Qsum (map (fun x => 1 + rank_delta col x) l) ==
  of_nat (length l) + of_nat (list_sum (map (count_gt col) l)) +
  (1 # 2) * (of_nat (list_sum (map (count_eq col) l)) - of_nat (length l)).
Proof.
  induction l as [ | a l IH ]; cbn [map length].
  - vm_compute. reflexivity.
  - rewrite Qsum_cons, !list_sum_cons, IH.
    change (S (length l)) with (1 + length l)%nat.
    rewrite !of_nat_plus. change (of_nat 1) with 1.
    unfold rank_delta. ring.
Qed.

Lemma of_nat_mult (a b : nat) : of_nat (a * b) == of_nat a * of_nat b.
Proof. unfold of_nat. now rewrite Nat2Z.inj_mul, inject_Z_mult. Qed.

(** X3.  In every column the ranks add up to [k (k + 1) / 2], ties or
    not. *)
Theorem ranks_column_sum (data : ndarray2) :
  wf_array data ->
  exists R,
    ranks data = Ok R /\
    forall j, (j < n_cols data)%nat ->
      Qsum (column R j) ==
      of_nat (length (arr_rows data)) * (of_nat (length (arr_rows data)) + 1)
      / 2.
Proof.
  intros Hwf. destruct (ranks_cells data Hwf) as (R & HR & _).
  exists R. split; [ exact HR | ]. intros j Hj.
  rewrite (ranks_column_map data R j Hwf HR Hj), Qsum_ranks.
  set (col := column (arr_rows data) j).
  pose proof (sum_counts col) as Hs.
  apply (f_equal of_nat) in Hs.
  assert (Hs' : 2 * of_nat (list_sum (map (count_gt col) col)) +
                of_nat (list_sum (map (count_eq col) col)) ==
                of_nat (length col) * of_nat (length col)).
  { rewrite <- of_nat_mult, <- Hs, of_nat_plus, of_nat_mult. reflexivity. }
  replace (length (arr_rows data)) with (length col)
    by apply column_length.
  field_simplify_eq. lra.
Qed.

(** ** An algorithm that wins everywhere *)

Lemma counts_below (l : list Q) (x : Q) :
  Forall (fun y => y < x) l -> count_gt l x = 0%nat /\ count_eq l x = 0%nat.
Proof.
  unfold count_gt, count_eq.
  induction 1 as [ | y l Hy _ [IHg IHe] ]; simpl; [ split; reflexivity | ].
  destruct (Qlt_boolP x y) as [L | _].
  - exfalso. apply (Qlt_irrefl x). now apply Qlt_trans with y.
  - destruct (Qeq_boolP y x) as [E | _]; [ | split; assumption ].
    exfalso. rewrite E in Hy. now apply (Qlt_irrefl x).
Qed.

Lemma counts_of_maximum (col : list Q) (i : nat) :
  (i < length col)%nat ->
  (forall i', (i' < length col)%nat -> i' <> i ->
              nth i' col 0 < nth i col 0) ->
  count_gt col (nth i col 0) = 0%nat /\ count_eq col (nth i col 0) = 1%nat.
Proof.
  intros Hi Hmax. set (x := nth i col 0) in *.
  assert (Hsplit : col = firstn i col ++ x :: skipn (S i) col).
  { rewrite <- (firstn_skipn i col) at 1. f_equal.
    unfold x. clear Hmax x. revert i Hi.
    induction col as [ | a t IH ]; intros [ | i ] Hi; simpl in *;
      try lia; [ reflexivity | apply IH; lia ]. }
  assert (Hpre : Forall (fun y => y < x) (firstn i col)).
  { apply Forall_forall. intros y Hy.
    destruct (In_nth _ y 0 Hy) as (m & Hm & <-).
    rewrite length_firstn in Hm. rewrite nth_firstn.
    destruct (Nat.ltb_spec m i); [ | lia ]. apply Hmax; lia. }
  assert (Hpost : Forall (fun y => y < x) (skipn (S i) col)).
  { apply Forall_forall. intros y Hy.
    destruct (In_nth _ y 0 Hy) as (m & Hm & <-).
    rewrite length_skipn in Hm. rewrite nth_skipn. apply Hmax; lia. }
  destruct (counts_below _ x Hpre) as [Hg1 He1].
  destruct (counts_below _ x Hpost) as [Hg2 He2].
  unfold count_gt, count_eq in *. rewrite Hsplit.
  rewrite !filter_app, !length_app. cbn [filter].
  rewrite Qlt_bool_irrefl.
  destruct (Qeq_boolP x x) as [_ | N]; [ | now destruct N ].
  cbn [length]. rewrite Hg1, Hg2, He1, He2. split; reflexivity.
Qed.

(** X4.  An algorithm whose score is strictly the highest on every
    dataset has rank [1] everywhere, and its average rank is [1]. *)
Theorem dominant_average_rank (data : ndarray2) (i : nat) :
  wf_array data -> (1 <= n_cols data)%nat ->
  (i < length (arr_rows data))%nat ->
  (forall i' j, (i' < length (arr_rows data))%nat -> (j < n_cols data)%nat ->
                i' <> i ->
                cell (arr_rows data) i' j < cell (arr_rows data) i j) ->
  exists R,
    ranks data = Ok R /\
    (forall j, (j < n_cols data)%nat -> cell R i j == 1) /\
    nth i (np_mean_rows R) 0 == 1.
Proof.
  intros Hwf Hn Hi Hdom.
  destruct (ranks_cells data Hwf) as (R & HR & Hsh & Hcell).
  exists R. split; [ exact HR | ].
  assert (Hone : forall j, (j < n_cols data)%nat -> cell R i j == 1).
  { intros j Hj. rewrite Hcell by assumption.
    destruct (counts_of_maximum (column (arr_rows data) j) i) as [Hg He].
    - now rewrite column_length.
    - intros i' Hi' Hne. rewrite column_length in Hi'.
      rewrite !nth_column. now apply Hdom.
    - rewrite nth_column in Hg, He. unfold rank_delta.
      rewrite Hg, He. reflexivity. }
  split; [ exact Hone | ].
  pose proof (has_shape_row R _ _ i Hsh Hi) as Hrow.
  destruct Hsh as [Hlen _].
  unfold np_mean_rows.
  rewrite (nth_map_in_range _ R i [] 0) by lia.
  destruct (mean_bounds 1 1 (nth i R [])) as [Hlo Hhi].
  - intros E. rewrite E in Hrow. simpl in Hrow. lia.
  - apply Forall_forall. intros x Hx.
    destruct (In_nth _ x 0 Hx) as (j & Hj & <-).
    rewrite Hrow in Hj. specialize (Hone j Hj). unfold cell in Hone.
    rewrite Hone. split; apply Qle_refl.
  - now apply Qle_antisym.
Qed.

(** ** The sorted average ranks *)

Lemma insert_by_key_sorted (p : Q * nat) (l : list (Q * nat)) :
  StronglySorted key_le l -> StronglySorted key_le (insert_by_key p l).
Proof.
  induction 1 as [ | q t Hs IH Hq ]; simpl.
  - repeat constructor.
  - destruct (Qle_boolP (fst p) (fst q)) as [Hpq | Hpq].
    + constructor; [ now constructor | ].
      constructor; [ exact Hpq | ].
      eapply Forall_impl; [ | exact Hq ].
      intros r Hr. unfold key_le in *. now apply Qle_trans with (fst q).
    + constructor; [ exact IH | ].
      eapply Permutation_Forall.
      * symmetry. apply insert_by_key_perm.
      * constructor; [ | exact Hq ].
        unfold key_le. apply Qlt_le_weak. now apply Qnot_le_lt.
Qed.

Lemma sort_by_key_sorted (l : list (Q * nat)) :
  StronglySorted key_le (fold_right insert_by_key [] l).
Proof.
  induction l as [ | p l IH ]; simpl.
  - constructor.
  - now apply insert_by_key_sorted.
Qed.

Lemma combine_positions (a pre : list Q) :
  Forall (fun p : Q * nat => nth (snd p) (pre ++ a) 0 = fst p)
         (combine a (seq (length pre) (length a))).
Proof.
  revert pre. induction a as [ | x a IH ]; intros pre; simpl.
  - constructor.
  - constructor.
    + simpl. apply nth_middle.
    + specialize (IH (pre ++ [x])).
      rewrite <- app_assoc, length_app in IH. simpl in IH.
      now rewrite Nat.add_1_r in IH.
Qed.

Lemma map_fst_combine {A B : Type} (l : list A) (l' : list B) :
  length l = length l' -> map fst (combine l l') = l.
Proof.
  revert l'. induction l as [ | a l IH ]; intros [ | b l' ] H;
    simpl in *; try discriminate; [ reflexivity | ].
  f_equal. apply IH. congruence.
Qed.

(** Reading the array at the sorted positions gives the sorted values. *)
Lemma argsort_values (a : list Q) :
  map (fun i => nth i a 0) (np_argsort a) =
  map fst (fold_right insert_by_key [] (combine a (seq 0 (length a)))).
Proof.
  unfold np_argsort. rewrite map_map. apply map_ext_in.
  intros p Hp.
  apply (Permutation_in _ (sort_by_key_perm _)) in Hp.
  pose proof (combine_positions a []) as H. simpl in H.
  rewrite Forall_forall in H. now apply H.
Qed.

Lemma argsort_values_sorted (a : list Q) :
  StronglySorted Qle (map (fun i => nth i a 0) (np_argsort a)).
Proof.
  rewrite argsort_values.
  induction (sort_by_key_sorted (combine a (seq 0 (length a))))
    as [ | p l _ IH Hp ]; simpl.
  - constructor.
  - constructor; [ exact IH | ]. now apply Forall_map.
Qed.

Lemma argsort_values_perm (a : list Q) :
  Permutation (map (fun i => nth i a 0) (np_argsort a)) a.
Proof.
  rewrite argsort_values.
  rewrite (Permutation_map fst (sort_by_key_perm _)).
  rewrite map_fst_combine; [ reflexivity | now rewrite length_seq ].
Qed.

Lemma sorted_average_ranks_sorted (data : ndarray2) :
  wf_array data -> (length (arr_rows data) <= 256)%nat ->
  exists R avranks,
    ranks data = Ok R /\
    sorted_average_ranks data = Ok avranks /\
    StronglySorted Qle avranks /\
    Permutation avranks (np_mean_rows R).
Proof.
  intros Hwf Hk. destruct (ranks_cells data Hwf) as (R & HR & Hsh & _).
  exists R, (map (fun i => nth i (np_mean_rows R) 0)
                 (np_argsort (np_mean_rows R))).
  split; [ exact HR | ]. split.
  - unfold sorted_average_ranks. rewrite HR. cbn [bind].
    rewrite (take_in_range _ 0 _ (sort_indices_range _)).
    rewrite sort_indices_exact; [ reflexivity | ].
    rewrite np_mean_rows_length. destruct Hsh as [-> _]. exact Hk.
  - split; [ apply argsort_values_sorted | apply argsort_values_perm ].
Qed.

(** X5.  With at most 256 algorithms, the sequence that [CDplot] passes
    on is in ascending order and is a rearrangement of the row means of
    the rank matrix. *)
Theorem average_ranks_ascending (data : ndarray2) :
  wf_array data -> (length (arr_rows data) <= 256)%nat ->
  exists R avranks,
    ranks data = Ok R /\
    sorted_average_ranks data = Ok avranks /\
    StronglySorted Qle avranks /\
    Permutation avranks (np_mean_rows R).
Proof. exact (sorted_average_ranks_sorted data). Qed.

(** * Further properties of [_join_alg] *)

Lemma candidate_span (avranks : list Q) (cd : Q) (i : nat) (c : Q * Q) :
  (i < length avranks)%nat ->
  candidate avranks cd i = Some c ->
  0 < snd c - fst c /\ snd c - fst c < cd /\
  In (fst c) avranks /\ In (snd c) avranks.
Proof.
  intros Hi Hc. unfold candidate in Hc.
  destruct (farthest_partner avranks cd i) as [j | ] eqn:Hj;
    [ | discriminate ].
  inversion Hc; subst c. simpl.
  destruct (farthest_partner_spec avranks cd i j Hj) as (Hlt & [H1 H2] & _).
  repeat split; try assumption; now apply nth_In.
Qed.

Lemma candidates_span (avranks : list Q) (cd : Q) :
  Forall (fun c => 0 < snd c - fst c /\ snd c - fst c < cd /\
                   In (fst c) avranks /\ In (snd c) avranks)
         (candidates avranks cd).
Proof.
  apply Forall_forall. intros c Hc. unfold candidates in Hc.
  apply in_collect in Hc. destruct Hc as (i & Hi & Hc).
  apply in_seq in Hi. apply (candidate_span avranks cd i); [ lia | exact Hc ].
Qed.

Lemma chain_incl (p : Q * Q) (cs : list (Q * Q)) (c : Q * Q) :
  In c (chain p cs) -> In c cs.
Proof.
  revert p. induction cs as [ | x t IH ]; intros p; simpl; [ auto | ].
  destruct (Qlt_bool (snd p) (snd x)).
  - intros [<- | H]; [ now left | right; now apply (IH x) ].
  - intros H. right. now apply (IH x).
Qed.

(** What [_join_alg] returns is [sets[0]] followed by the rows that the
    loop stacks. *)
Lemma join_alg_rows (avranks : list Q) (cd : Q) (g : group_array) :
  Forall (fun r => 0 <= r) avranks ->
  _join_alg avranks (length avranks) cd = Ok g ->
  exists p rest,
    candidates avranks cd = p :: rest /\ group_rows g = p :: chain p rest.
Proof.
  intros Hpos Hg. unfold _join_alg in Hg.
  rewrite (candidate_pairs_spec avranks cd Hpos) in Hg. cbn [bind] in Hg.
  destruct (candidates avranks cd) as [ | p rest ]; [ discriminate | ].
  exists p, rest. split; [ reflexivity | ].
  destruct (group_pairs_chain p rest) as (g' & Hg' & Hrows).
  rewrite Hg in Hg'. now inversion Hg'; subst.
Qed.

(** X6.  Every clique that the grouper returns joins two of the average
    ranks, its upper end strictly above its lower end and less than [cd]
    away from it. *)
Theorem join_alg_spans (avranks : list Q) (cd : Q) (g : group_array) :
  Forall (fun r => 0 <= r) avranks ->
  _join_alg avranks (length avranks) cd = Ok g ->
  Forall (fun c => 0 < snd c - fst c /\ snd c - fst c < cd /\
                   In (fst c) avranks /\ In (snd c) avranks)
         (group_rows g).
Proof.
  intros Hpos Hg.
  destruct (join_alg_rows avranks cd g Hpos Hg) as (p & rest & Hc & ->).
  pose proof (candidates_span avranks cd) as Hspan.
  rewrite Hc in Hspan. rewrite Forall_forall in *.
  intros c [<- | Hin]; apply Hspan; [ now left | right ].
  now apply (chain_incl p).
Qed.

Lemma merge_from_increasing (cs : list (Q * Q)) :
  forall kept,
    Forall (high_lt kept) (merge_from kept cs) /\
    StronglySorted high_lt (merge_from kept cs).
Proof.
  induction cs as [ | c t IH ]; intros kept; simpl.
  - split; constructor.
  - destruct (Qlt_boolP (snd kept) (snd c)) as [L | _].
    + destruct (IH c) as [Hall Hs]. split.
      * constructor; [ exact L | ].
        eapply Forall_impl; [ | exact Hall ].
        intros x Hx. unfold high_lt in *. now apply Qlt_trans with (snd c).
      * now constructor.
    + apply IH.
Qed.

(** X7.  For ascending average ranks the upper ends of the returned
    cliques strictly increase: no clique repeats or lies below the upper
    end of an earlier one. *)
Theorem join_alg_increasing (avranks : list Q) (cd : Q) (g : group_array) :
  StronglySorted Qle avranks ->
  Forall (fun r => 0 <= r) avranks ->
  _join_alg avranks (length avranks) cd = Ok g ->
  StronglySorted high_lt (group_rows g).
Proof.
  intros Hs Hpos Hg.
  destruct (join_alg_rows avranks cd g Hpos Hg) as (p & rest & Hc & ->).
  pose proof (candidates_sorted avranks cd Hs) as Hsorted.
  rewrite Hc in Hsorted.
  rewrite (chain_merge rest p p Hsorted (Qeq_refl _)).
  destruct (merge_from_increasing rest p) as [Hall Hinc].
  now constructor.
Qed.

Lemma candidates_nil (avranks : list Q) (cd : Q) :
  (forall i j, (i < length avranks)%nat -> (j < length avranks)%nat ->
               eligible avranks cd i j = false) ->
  candidates avranks cd = [].
Proof.
  intros H. unfold candidates.
  assert (Hgen : forall l, Forall (fun i => (i < length avranks)%nat) l ->
                           collect (candidate avranks cd) l = []).
  { induction 1 as [ | i l Hi _ IH ]; simpl; [ reflexivity | ].
    unfold candidate.
    rewrite (proj2 (farthest_partner_none avranks cd i)); [ exact IH | ].
    intros j Hj. now apply H. }
  apply Hgen. apply Forall_forall. intros i Hi. apply in_seq in Hi. lia.
Qed.

(** X8.  Whenever no two average ranks differ by a positive amount
    smaller than [cd], the grouper raises [IndexError]: it reads the
    first row of an empty array. *)
Theorem join_alg_raises_without_pairs (avranks : list Q) (cd : Q) :
  Forall (fun r => 0 <= r) avranks ->
  (forall i j, (i < length avranks)%nat -> (j < length avranks)%nat ->
               ~ (0 < nth j avranks 0 - nth i avranks 0 /\
                  nth j avranks 0 - nth i avranks 0 < cd)) ->
  _join_alg avranks (length avranks) cd = Err IndexError.
Proof.
  intros Hpos Hno. apply join_alg_empty; [ exact Hpos | ].
  apply candidates_nil. intros i j Hi Hj.
  destruct (eligible avranks cd i j) eqn:He; [ | reflexivity ].
  exfalso. apply (Hno i j Hi Hj). now apply eligible_iff.
Qed.

Lemma fold_vstack_shape (l : list (Q * Q)) (p : Q * Q) :
  match fold_left np_vstack l (Group1 p) with
  | Group1 r => l = [] /\ r = p
  | Group2 rows => (2 <= length rows)%nat /\ l <> []
  end.
Proof.
  destruct l as [ | c l ]; simpl; [ split; reflexivity | ].
  assert (H : forall rows, (2 <= length rows)%nat ->
            match fold_left np_vstack l (Group2 rows) with
            | Group1 _ => False
            | Group2 rows' => (2 <= length rows')%nat
            end).
  { induction l as [ | d l IH ]; intros rows Hr; simpl; [ exact Hr | ].
    apply IH. rewrite length_app. simpl. lia. }
  specialize (H [p; c] (le_n 2)).
  destruct (fold_left np_vstack l (Group2 [p; c])); [ contradiction | ].
  split; [ exact H | discriminate ].
Qed.

Lemma join_alg_shape_rows (avranks : list Q) (num_alg : nat) (cd : Q)
  (rows : list (Q * Q)) :
  _join_alg avranks num_alg cd = Ok (Group2 rows) ->
  (2 <= length rows)%nat.
Proof.
  unfold _join_alg. intros Hg.
  destruct (candidate_pairs avranks num_alg cd) as [sets | e];
    [ cbn [bind] in Hg | discriminate ].
  destruct sets as [ | p rest ]; [ discriminate | ].
  unfold group_pairs, index in Hg. cbn [nth_error bind length] in Hg.
  replace (S (length rest) - 1)%nat with (length rest) in Hg by lia.
  rewrite (group_fold rest [] p) in Hg. inversion Hg as [Hg'].
  pose proof (fold_vstack_shape (chain p rest) p) as Hshape.
  rewrite Hg' in Hshape. now destruct Hshape.
Qed.

(** X9.  The array that the grouper returns is two-dimensional exactly
    when at least two cliques are kept; a single clique comes back as a
    one-dimensional pair. *)
Theorem join_alg_shape (avranks : list Q) (num_alg : nat) (cd : Q)
  (g : group_array) :
  _join_alg avranks num_alg cd = Ok g ->
  (exists rows, g = Group2 rows) <-> (2 <= length (group_rows g))%nat.
Proof.
  unfold _join_alg. intros Hg.
  destruct (candidate_pairs avranks num_alg cd) as [sets | e];
    [ cbn [bind] in Hg | discriminate ].
  destruct sets as [ | p rest ]; [ discriminate | ].
  unfold group_pairs, index in Hg. cbn [nth_error bind length] in Hg.
  replace (S (length rest) - 1)%nat with (length rest) in Hg by lia.
  rewrite (group_fold rest [] p) in Hg. inversion Hg as [Hg'].
  pose proof (fold_vstack_shape (chain p rest) p) as Hshape.
  destruct (fold_left np_vstack (chain p rest) (Group1 p)) as [r | rows].
  - split; [ intros [rows Hrows]; discriminate | simpl; lia ].
  - split; [ intros _; now destruct Hshape | intros _; now exists rows ].
Qed.

(** * Further properties of [CDplot] *)

Lemma snd_plot_bind_ok {A B : Type} (m : plot A) (k : A -> plot B) (b : B) :
  snd (plot_bind m k) = Ok b ->
  exists a, snd m = Ok a /\ snd (k a) = Ok b.
Proof.
  unfold plot_bind. destruct (snd m) as [a | e]; simpl; [ | discriminate ].
  intros H. now exists a.
Qed.

Lemma snd_plot_bind_eq {A B : Type} (m : plot A) (a : A) (k : A -> plot B) :
  snd m = Ok a -> snd (plot_bind m k) = snd (k a).
Proof. intros H. unfold plot_bind. now rewrite H. Qed.


Lemma for_each_ok {A : Type} (l : list A) (body : A -> plot unit) :
  (forall x, In x l -> snd (body x) = Ok tt) ->
  snd (for_each l body) = Ok tt.
Proof.
  induction l as [ | x l IH ]; intros H; simpl; [ reflexivity | ].
  rewrite (snd_plot_bind_eq _ tt) by (apply H; now left).
  apply IH. intros y Hy. apply H. now right.
Qed.

Lemma draw_axis_ok (highest lowest : Z) :
  snd (draw_axis highest lowest) = Ok tt.
Proof.
  unfold draw_axis. rewrite (snd_plot_bind_eq _ tt) by reflexivity.
  apply for_each_ok. intros xi _.
  rewrite (snd_plot_bind_eq _ tt) by reflexivity.
  rewrite (snd_plot_bind_eq _ tt) by reflexivity.
  now destruct (Z.of_nat xi <? astype_uint8 (highest - lowest))%Z.
Qed.

Section Completion.

Variable get_tukeyQcrit : Z -> Z -> Q -> result Q.
Variable np_sqrt : Q -> Q.

(** X10.  With a supported [alpha], an argument that is not a 2-D array
    is refused with the second initialization exception, before anything
    is computed or drawn. *)
Theorem CDplot_rejects_dimension (results : ndarray) (alpha : Q)
  (alg_names : option (list string)) :
  supported_alpha alpha = true -> ndim results <> 2%nat ->
  CDplot get_tukeyQcrit np_sqrt results alpha alg_names =
  ([], Err (PyException ndim_message)).
Proof.
  intros Ha Hd. unfold CDplot. rewrite Ha. cbn [negb].
  destruct results; try reflexivity. now destruct Hd.
Qed.

(** X11.  A call of [CDplot] that returns without raising has been given
    a supported [alpha], and its grouper returned a two-dimensional array
    of at least two cliques: with fewer, slicing the result raises. *)
Theorem CDplot_completes (data : ndarray2) (alpha : Q)
  (alg_names : option (list string)) :
  snd (CDplot get_tukeyQcrit np_sqrt (Nd2 data) alpha alg_names) = Ok tt ->
  supported_alpha alpha = true /\
  exists cd avranks rows,
    NemenyiCD get_tukeyQcrit np_sqrt alpha
      (Z.of_nat (length (arr_rows data))) (Z.of_nat (n_cols data)) = Ok cd /\
    sorted_average_ranks data = Ok avranks /\
    _join_alg avranks (length (arr_rows data)) cd = Ok (Group2 rows) /\
    (2 <= length rows)%nat.
Proof.
  unfold CDplot. destruct (supported_alpha alpha); cbn [negb];
    [ | discriminate ].
  cbn [shape]. intros H. split; [ reflexivity | ].
  apply snd_plot_bind_ok in H. destruct H as (cd & Hcd & H).
  apply snd_plot_bind_ok in H. destruct H as (R & HR & H).
  apply snd_plot_bind_ok in H. destruct H as (avranks & Hav & H).
  destruct (split_algorithms (length (arr_rows data)) avranks)
    as [leftalg rightalg].
  apply snd_plot_bind_ok in H. destruct H as (hi & _ & H).
  apply snd_plot_bind_ok in H. destruct H as (lo & _ & H).
  apply snd_plot_bind_ok in H. destruct H as (? & _ & H).
  apply snd_plot_bind_ok in H. destruct H as (? & _ & H).
  apply snd_plot_bind_ok in H. destruct H as (? & _ & H).
  apply snd_plot_bind_ok in H. destruct H as (? & _ & H).
  apply snd_plot_bind_ok in H. destruct H as (? & _ & H).
  apply snd_plot_bind_ok in H. destruct H as (nonsig & Hns & H).
  simpl in Hcd, HR, Hav, Hns.
  destruct nonsig as [r | rows]; [ discriminate | ].
  exists cd, avranks, rows. split; [ exact Hcd | ]. split.
  - unfold sorted_average_ranks. rewrite HR. exact Hav.
  - split; [ exact Hns | ].
    apply (join_alg_shape_rows _ _ _ _ Hns).
Qed.

End Completion.

(** X12.  An even number [k < 512] of algorithms is split into two halves
    of [k / 2] algorithms each. *)
Theorem split_algorithms_even (k : nat) (avranks : list Q) :
  length avranks = k -> Nat.even k = true -> (k < 512)%nat ->
  let '(leftalg, rightalg) := split_algorithms k avranks in
  length leftalg = (k / 2)%nat /\ length rightalg = (k / 2)%nat.
Proof.
  intros Hlen Heven Hk. unfold split_algorithms, split_point, of_nat.
  rewrite np_round_half.
  apply Nat.even_spec in Heven. destruct Heven as [m Hm].
  assert (Hz : Z.even (Z.of_nat k) = true).
  { apply Z.even_spec. exists (Z.of_nat m). lia. }
  rewrite Hz.
  assert (Hhalf : (Z.of_nat k / 2 = Z.of_nat m)%Z)
    by (symmetry; apply (Z.div_unique (Z.of_nat k) 2 (Z.of_nat m) 0); lia).
  rewrite Hhalf, astype_uint8_small by lia.
  rewrite Nat2Z.id, length_firstn, length_skipn, Hlen.
  assert (Hdiv : (k / 2 = m)%nat)
    by (symmetry; apply (Nat.div_unique k 2 m 0); lia).
  rewrite Hdiv. lia.
Qed.

(** ** Positions on the axis *)

Lemma x_position_on_axis (highest lowest : Z) (r : Q) :
  (0 <= lowest)%Z -> (lowest < highest)%Z -> (highest < 256)%Z ->
  inject_Z lowest <= r -> r <= inject_Z highest ->
  exists x,
    x_position highest lowest (lline * (r - inject_Z lowest)) = Finite x /\
    sleft <= x /\ x <= sright.
Proof.
  intros Hl Hlh Hh Hlo Hhi. unfold x_position.
  rewrite astype_uint8_small by lia. unfold np_true_divide.
  destruct (Z.eqb_spec (highest - lowest) 0) as [E | _]; [ lia | ].
  eexists. split; [ reflexivity | ].
  assert (Hd : 0 < inject_Z (highest - lowest))
    by (rewrite <- (Zlt_Qlt 0); lia).
  assert (Hsub : inject_Z (highest - lowest) ==
                 inject_Z highest - inject_Z lowest).
  { unfold Z.sub. rewrite inject_Z_plus, inject_Z_opp. reflexivity. }
  assert (H0 : 0 <= lline * (r - inject_Z lowest) /
                    inject_Z (highest - lowest)).
  { apply Qle_shift_div_l; [ exact Hd | ].
    unfold lline, sright, sleft. lra. }
  assert (H1 : lline * (r - inject_Z lowest) /
               inject_Z (highest - lowest) <= lline).
  { apply Qle_shift_div_r; [ exact Hd | ].
    rewrite Hsub. unfold lline, sright, sleft. lra. }
  unfold lline, sright, sleft in *. split; lra.
Qed.

Lemma fold_q_max_ge (t : list Q) (x : Q) :
  x <= fold_left q_max t x /\ Forall (fun y => y <= fold_left q_max t x) t.
Proof.
  revert x. induction t as [ | y t IH ]; intros x; simpl.
  - split; [ apply Qle_refl | constructor ].
  - destruct (IH (q_max x y)) as [Hm Hall].
    assert (Hx : x <= q_max x y /\ y <= q_max x y).
    { unfold q_max. destruct (Qle_boolP x y) as [H | H].
      - split; [ exact H | apply Qle_refl ].
      - split; [ apply Qle_refl | ].
        apply Qlt_le_weak. now apply Qnot_le_lt. }
    destruct Hx as [Hx Hy]. split.
    + now apply Qle_trans with (q_max x y).
    + constructor; [ now apply Qle_trans with (q_max x y) | exact Hall ].
Qed.

Lemma fold_q_min_le (t : list Q) (x : Q) :
  fold_left q_min t x <= x /\ Forall (fun y => fold_left q_min t x <= y) t.
Proof.
  revert x. induction t as [ | y t IH ]; intros x; simpl.
  - split; [ apply Qle_refl | constructor ].
  - destruct (IH (q_min x y)) as [Hm Hall].
    assert (Hx : q_min x y <= x /\ q_min x y <= y).
    { unfold q_min. destruct (Qle_boolP x y) as [H | H].
      - split; [ apply Qle_refl | exact H ].
      - split; [ | apply Qle_refl ].
        apply Qlt_le_weak. now apply Qnot_le_lt. }
    destruct Hx as [Hx Hy]. split.
    + now apply Qle_trans with (q_min x y).
    + constructor; [ now apply Qle_trans with (q_min x y) | exact Hall ].
Qed.

Lemma np_max_upper (l : list Q) (m : Q) :
  np_max l = Ok m -> Forall (fun y => y <= m) l.
Proof.
  destruct l as [ | x t ]; [ discriminate | ].
  intros H. inversion H; subst.
  destruct (fold_q_max_ge t x) as [Hx Hall]. now constructor.
Qed.

Lemma np_min_lower (l : list Q) (m : Q) :
  np_min l = Ok m -> Forall (fun y => m <= y) l.
Proof.
  destruct l as [ | x t ]; [ discriminate | ].
  intros H. inversion H; subst.
  destruct (fold_q_min_le t x) as [Hx Hall]. now constructor.
Qed.

(** X13.  With at most 255 algorithms and average ranks that do not all
    round to one integer, every stem of the diagram is drawn at a finite
    position between the two ends of the axis. *)
Theorem stems_on_axis (data : ndarray2) :
  wf_array data ->
  (1 <= length (arr_rows data) <= 255)%nat -> (1 <= n_cols data)%nat ->
  exists avranks highest lowest,
    sorted_average_ranks data = Ok avranks /\
    highest_rank avranks = Ok highest /\
    lowest_rank avranks = Ok lowest /\
    ((lowest < highest)%Z ->
     Forall (fun a =>
               exists x,
                 x_position highest lowest (lline * (a - inject_Z lowest)) =
                   Finite x /\
                 sleft <= x /\ x <= sright) avranks).
Proof.
  intros Hwf Hk Hn.
  destruct (sorted_average_ranks_bounds data Hwf Hn)
    as (avranks & Hav & Hlen & Hb).
  assert (Hne : avranks <> []) by (intros ->; simpl in Hlen; lia).
  destruct (np_max_in _ avranks Hne Hb) as (hi & Hhi & Hhib).
  destruct (np_min_in _ avranks Hne Hb) as (lo & Hlo & Hlob).
  pose proof (Qceiling_bounds hi _ (proj1 Hhib) (proj2 Hhib)) as Hc.
  pose proof (Qfloor_bounds lo _ (proj1 Hlob) (proj2 Hlob)) as Hf.
  exists avranks, (Qceiling hi), (Qfloor lo).
  split; [ exact Hav | ]. split.
  { unfold highest_rank. rewrite Hhi. cbn [bind].
    now rewrite astype_uint8_small by lia. }
  split.
  { unfold lowest_rank. rewrite Hlo. cbn [bind].
    now rewrite astype_uint8_small by lia. }
  intros Hlt.
  pose proof (np_max_upper avranks hi Hhi) as Hup.
  pose proof (np_min_lower avranks lo Hlo) as Hdown.
  rewrite Forall_forall in *. intros a Ha.
  apply x_position_on_axis; try lia.
  - apply Qle_trans with lo; [ apply Qfloor_le | now apply Hdown ].
  - apply Qle_trans with hi; [ now apply Hup | apply Qle_ceiling ].
Qed.

(** ** Too few names *)


Lemma split_point_bounds (k : nat) :
  (2 <= k <= 256)%nat -> (1 <= split_point k <= Z.of_nat k)%Z.
Proof.
  intros Hk. unfold split_point, of_nat. rewrite np_round_half.
  assert (H1 : (1 <= Z.of_nat k / 2)%Z)
    by (apply Z.div_le_lower_bound; lia).
  assert (H2 : (Z.of_nat k / 2 <= 128)%Z)
    by (apply Z.div_le_upper_bound; lia).
  assert (H3 : (2 * (Z.of_nat k / 2) <= Z.of_nat k)%Z)
    by (apply Z.mul_div_le; lia).
  destruct (Z.even (Z.of_nat k)) eqn:He.
  - rewrite astype_uint8_small; lia.
  - destruct (Z.even (Z.of_nat k / 2)).
    + rewrite astype_uint8_small; lia.
    + rewrite <- Z.negb_odd in He. apply negb_false_iff in He.
      apply Z.odd_spec in He. destruct He as [m Hm].
      assert (H4 : (Z.of_nat k / 2 < 128)%Z)
        by (apply Z.div_lt_upper_bound; lia).
      rewrite astype_uint8_small; lia.
Qed.

Section Names.

Variable get_tukeyQcrit : Z -> Z -> Q -> result Q.
Variable np_sqrt : Q -> Q.


End Names.

(** ** The average ranks add up to [k (k + 1) / 2] *)

Lemma Qsum_map_add {A : Type} (f g : A -> Q) (l : list A) :
  Qsum (map (fun x => f x + g x) l) == Qsum (map f l) + Qsum (map g l).
Proof.
  induction l as [ | a l IH ]; cbn [map].
  - vm_compute. reflexivity.
  - rewrite !Qsum_cons, IH. ring.
Qed.

Lemma Qsum_map_div {A : Type} (f : A -> Q) (c : Q) (l : list A) :
  Qsum (map (fun x => f x / c) l) == Qsum (map f l) / c.
Proof.
  induction l as [ | a l IH ]; cbn [map].
  - unfold Qsum. simpl. unfold Qdiv. ring.
  - rewrite !Qsum_cons, IH. unfold Qdiv. ring.
Qed.

Lemma Qsum_map_all {A : Type} (f : A -> Q) (c : Q) (l : list A) :
  (forall x, In x l -> f x == c) ->
  Qsum (map f l) == of_nat (length l) * c.
Proof.
  induction l as [ | a l IH ]; intros H; cbn [map length].
  - unfold Qsum. simpl. change (of_nat 0) with 0. ring.
  - rewrite Qsum_cons, IH by (intros x Hx; apply H; now right).
    rewrite (H a) by (now left).
    change (S (length l)) with (1 + length l)%nat.
    rewrite of_nat_plus. change (of_nat 1) with 1. ring.
Qed.

Lemma map_nth_seq (r : list Q) :
  map (fun j => nth j r 0) (seq 0 (length r)) = r.
Proof.
  apply (nth_ext _ _ 0 0).
  - now rewrite length_map, length_seq.
  - intros j Hj. rewrite length_map, length_seq in Hj.
    rewrite (nth_map_in_range _ _ j 0%nat) by (now rewrite length_seq).
    now rewrite seq_nth.
Qed.

(** Adding up a matrix by rows or by columns gives the same total. *)
Lemma Qsum_rows_columns (M : matrix) (n : nat) :
  Forall (fun r => length r = n) M ->
  Qsum (map Qsum M) == Qsum (map (fun j => Qsum (column M j)) (seq 0 n)).
Proof.
  induction 1 as [ | r t Hr _ IH ]; cbn [map].
  - rewrite (Qsum_map_all _ 0) by (intros; reflexivity).
    unfold Qsum at 1. simpl. ring.
  - rewrite Qsum_cons, IH.
    rewrite (map_ext (fun j => Qsum (column (r :: t) j))
               (fun j => nth j r 0 + Qsum (column t j)))
      by (intros j; reflexivity).
    rewrite Qsum_map_add. rewrite <- Hr at 2. rewrite map_nth_seq.
    reflexivity.
Qed.

(** X15.  The average ranks of the algorithms add up to [k (k + 1) / 2]. *)
Theorem average_ranks_sum (data : ndarray2) :
  wf_array data -> (1 <= n_cols data)%nat ->
  exists R,
    ranks data = Ok R /\
    Qsum (np_mean_rows R) ==
    of_nat (length (arr_rows data)) * (of_nat (length (arr_rows data)) + 1)
    / 2.
Proof.
  intros Hwf Hn. destruct (ranks_cells data Hwf) as (R & HR & Hsh & _).
  exists R. split; [ exact HR | ].
  destruct Hsh as [Hlen Hrows]. unfold np_mean_rows.
  rewrite (map_ext_in _ (fun r => Qsum r / of_nat (n_cols data))).
  2:{ intros r Hr. rewrite Forall_forall in Hrows. now rewrite (Hrows r Hr). }
  rewrite Qsum_map_div, (Qsum_rows_columns R (n_cols data) Hrows).
  rewrite (Qsum_map_all _
             (of_nat (length (arr_rows data)) *
              (of_nat (length (arr_rows data)) + 1) / 2)).
  - rewrite length_seq.
    assert (Hpos : 0 < of_nat (n_cols data)).
    { unfold of_nat. rewrite <- (Zlt_Qlt 0). lia. }
    field. intros E. rewrite E in Hpos. now apply (Qlt_irrefl 0).
  - intros j Hj. apply in_seq in Hj.
    rewrite (ranks_column_map data R j Hwf HR) by lia.
    rewrite Qsum_ranks.
    set (col := column (arr_rows data) j).
    pose proof (sum_counts col) as Hs.
    apply (f_equal of_nat) in Hs.
    assert (Hs' : 2 * of_nat (list_sum (map (count_gt col) col)) +
                  of_nat (list_sum (map (count_eq col) col)) ==
                  of_nat (length col) * of_nat (length col)).
    { rewrite <- of_nat_mult, <- Hs, of_nat_plus, of_nat_mult. reflexivity. }
    replace (length (arr_rows data)) with (length col)
      by apply column_length.
    field_simplify_eq. lra.
Qed.

(** ** How a call of [CDplot] ends *)

Lemma take_length {A : Type} (a : list A) (indices : list nat) (l : list A) :
  take a indices = Ok l -> length l = length indices.
Proof.
  revert l. induction indices as [ | i t IH ]; intros l; simpl.
  - intros H. now inversion H.
  - destruct (index a i) as [x | e]; cbn [bind]; [ | discriminate ].
    destruct (take a t) as [rest | e]; cbn [bind]; [ | discriminate ].
    intros H. inversion H; subst. simpl. f_equal. now apply IH.
Qed.

Lemma index_in_range {A : Type} (a : list A) (i : nat) :
  (i < length a)%nat -> exists x, index a i = Ok x.
Proof.
  intros H. unfold index.
  destruct (nth_error a i) as [x | ] eqn:E; [ now exists x | ].
  apply nth_error_None in E. lia.
Qed.

Lemma draw_left_ok (highest lowest : Z) (spoint : nat) (leftalg : list Q)
  (names : list label) (indices : list nat) :
  (spoint <= length leftalg)%nat ->
  Forall (fun i => (i < length names)%nat) indices ->
  (spoint <= length indices)%nat ->
  snd (draw_left highest lowest spoint leftalg names indices) = Ok tt.
Proof.
  intros Hleft Hidx Hsp. unfold draw_left. apply for_each_ok.
  intros i Hi. apply in_seq in Hi.
  destruct (index_in_range leftalg i) as (a & Ha); [ lia | ].
  rewrite Ha, plot_bind_lift_ok.
  rewrite (snd_plot_bind_eq _ tt) by reflexivity.
  rewrite (snd_plot_bind_eq _ tt) by reflexivity.
  destruct names as [ | d names' ] eqn:En.
  - destruct indices as [ | j t ]; [ simpl in Hsp; lia | ].
    inversion Hidx; subst. simpl in *. lia.
  - rewrite <- En in *.
    rewrite (take_in_range names d indices Hidx), plot_bind_lift_ok.
    destruct (index_in_range (map (fun j => nth j names d) indices) i)
      as (name & Hname); [ rewrite length_map; lia | ].
    rewrite Hname, plot_bind_lift_ok. reflexivity.
Qed.

Lemma draw_right_ok (highest lowest : Z) (num_alg spoint : nat)
  (rightalg : list Q) (names : list label) (indices : list nat) :
  (num_alg - spoint <= length rightalg)%nat ->
  Forall (fun i => (i < length names)%nat) indices ->
  (num_alg <= length indices)%nat -> (spoint <= num_alg)%nat ->
  snd (draw_right highest lowest num_alg spoint rightalg names indices) =
  Ok tt.
Proof.
  intros Hright Hidx Hk Hsp. unfold draw_right. apply for_each_ok.
  intros i Hi. apply in_seq in Hi.
  destruct (index_in_range rightalg i) as (a & Ha); [ lia | ].
  rewrite Ha, plot_bind_lift_ok.
  rewrite (snd_plot_bind_eq _ tt) by reflexivity.
  rewrite (snd_plot_bind_eq _ tt) by reflexivity.
  destruct names as [ | d names' ] eqn:En.
  - destruct indices as [ | j t ]; [ simpl in Hk; lia | ].
    inversion Hidx; subst. simpl in *. lia.
  - rewrite <- En in *.
    rewrite (take_in_range names d indices Hidx), plot_bind_lift_ok.
    destruct (index_in_range (map (fun j => nth j names d) indices)
                (spoint + i))
      as (name & Hname); [ rewrite length_map; lia | ].
    rewrite Hname, plot_bind_lift_ok. reflexivity.
Qed.

Lemma draw_lines_ok (highest lowest : Z) (vspace : Q) (lines : list (Q * Q)) :
  snd (draw_lines highest lowest vspace lines) = Ok tt.
Proof.
  unfold draw_lines. apply for_each_ok. intros [i [lo hi]] _. reflexivity.
Qed.

Lemma draw_cliques_ok (highest lowest : Z) (rows : list (Q * Q)) :
  (2 <= length rows <= 256)%nat ->
  snd (draw_cliques highest lowest (Group2 rows)) = Ok tt.
Proof.
  intros Hm. unfold draw_cliques.
  rewrite (snd_plot_bind_eq _ tt) by apply draw_lines_ok.
  fold (split_point (length rows)).
  pose proof (split_point_bounds _ Hm) as Hsp.
  rewrite py_div_nonzero, plot_bind_lift_ok; [ apply draw_lines_ok | ].
  rewrite length_firstn. intros E.
  assert (H0 : of_nat 0 < of_nat (Nat.min (Z.to_nat (split_point (length rows)))
                                          (length rows))).
  { unfold of_nat. rewrite <- Zlt_Qlt. lia. }
  rewrite E in H0. now apply (Qlt_irrefl 0).
Qed.

Lemma chain_length (p : Q * Q) (cs : list (Q * Q)) :
  (length (chain p cs) <= length cs)%nat.
Proof.
  revert p. induction cs as [ | c t IH ]; intros p; simpl; [ lia | ].
  destruct (Qlt_bool (snd p) (snd c)); simpl; specialize (IH c); lia.
Qed.

Lemma collect_length {A : Type} (f : nat -> option A) (l : list nat) :
  (length (collect f l) <= length l)%nat.
Proof.
  induction l as [ | i l IH ]; simpl; [ lia | ].
  destruct (f i); simpl; lia.
Qed.

Lemma join_alg_row_count (avranks : list Q) (cd : Q) (g : group_array) :
  Forall (fun r => 0 <= r) avranks ->
  _join_alg avranks (length avranks) cd = Ok g ->
  (length (group_rows g) <= length avranks)%nat.
Proof.
  intros Hpos Hg.
  destruct (join_alg_rows avranks cd g Hpos Hg) as (p & rest & Hc & ->).
  pose proof (collect_length (candidate avranks cd) (seq 0 (length avranks)))
    as Hl.
  fold (candidates avranks cd) in Hl. rewrite Hc, length_seq in Hl.
  pose proof (chain_length p rest). simpl in *. lia.
Qed.

Section Outcome.

Variable get_tukeyQcrit : Z -> Z -> Q -> result Q.
Variable np_sqrt : Q -> Q.

Lemma CDplot_outcome_aux (data : ndarray2) (alpha : Q)
  (alg_names : option (list string)) (cd : Q) :
  wf_array data ->
  (1 <= length (arr_rows data) <= 256)%nat -> (1 <= n_cols data)%nat ->
  supported_alpha alpha = true ->
  NemenyiCD get_tukeyQcrit np_sqrt alpha
    (Z.of_nat (length (arr_rows data))) (Z.of_nat (n_cols data)) = Ok cd ->
  enough_names alg_names (length (arr_rows data)) ->
  exists avranks,
    sorted_average_ranks data = Ok avranks /\
    snd (CDplot get_tukeyQcrit np_sqrt (Nd2 data) alpha alg_names) =
    outcome (_join_alg avranks (length (arr_rows data)) cd).
Proof.
  intros Hwf Hk Hn Halpha Hcd Hnames.
  destruct (ranks_cells data Hwf) as (R & HR & Hsh & _).
  destruct (sorted_average_ranks_bounds data Hwf Hn)
    as (avranks & Hav & Hlen & Hb).
  exists avranks. split; [ exact Hav | ].
  unfold sorted_average_ranks in Hav. rewrite HR in Hav. cbn [bind] in Hav.
  unfold CDplot. rewrite Halpha. cbn [negb shape].
  rewrite Hcd, plot_bind_lift_ok, HR, plot_bind_lift_ok.
  rewrite Hav, plot_bind_lift_ok.
  set (k := length (arr_rows data)) in *.
  set (indices := sort_indices (np_mean_rows R)) in *.
  assert (Hilen : length indices = k).
  { unfold indices. rewrite sort_indices_length, np_mean_rows_length.
    now destruct Hsh. }
  assert (Hirange : Forall (fun i => (i < k)%nat) indices).
  { pose proof (sort_indices_range (np_mean_rows R)) as Hr.
    rewrite np_mean_rows_length in Hr. destruct Hsh as [Hl _].
    now rewrite Hl in Hr. }
  set (names := match alg_names with
                | Some l => map NameLabel l
                | None => map (fun cn => Placeholder (cn + 1)) (seq 0 k)
                end).
  assert (Hnlen : (k <= length names)%nat).
  { unfold names. destruct alg_names as [l | ]; simpl in Hnames.
    - now rewrite length_map.
    - now rewrite length_map, length_seq. }
  assert (Hnrange : Forall (fun i => (i < length names)%nat) indices).
  { eapply Forall_impl; [ | exact Hirange ]. intros i Hi. simpl in *. lia. }
  assert (Hne : avranks <> [])
    by (intros E; rewrite E in Hlen; simpl in Hlen; lia).
  destruct (np_max_in (fun _ => True) avranks Hne) as (hi & Hhi & _).
  { apply Forall_forall. auto. }
  destruct (np_min_in (fun _ => True) avranks Hne) as (lo & Hlo & _).
  { apply Forall_forall. auto. }
  unfold split_algorithms, highest_rank, lowest_rank.
  rewrite Hhi, Hlo. cbn [bind]. rewrite !plot_bind_lift_ok.
  assert (Hsp : (Z.to_nat (split_point k) <= k)%nat).
  { destruct (Nat.eq_dec k 1) as [-> | Hk1]; [ vm_compute; lia | ].
    pose proof (split_point_bounds k ltac:(lia)). lia. }
  rewrite (snd_plot_bind_eq _ tt) by reflexivity.
  rewrite (snd_plot_bind_eq _ tt) by apply draw_axis_ok.
  rewrite (snd_plot_bind_eq _ tt).
  2:{ apply draw_left_ok; [ | exact Hnrange | lia ].
      rewrite length_firstn. lia. }
  rewrite (snd_plot_bind_eq _ tt).
  2:{ apply draw_right_ok; [ | exact Hnrange | lia | exact Hsp ].
      rewrite length_skipn. lia. }
  rewrite (snd_plot_bind_eq _ tt) by reflexivity.
  destruct (_join_alg avranks k cd) as [g | e] eqn:Hg;
    [ | reflexivity ].
  rewrite plot_bind_lift_ok.
  destruct g as [r | rows]; [ reflexivity | ].
  cbn [outcome]. apply draw_cliques_ok. split.
  - apply (join_alg_shape_rows _ _ _ _ Hg).
  - assert (Hpos : Forall (fun r => 0 <= r) avranks).
    { eapply Forall_impl; [ | exact Hb ]. intros a [Ha _]. simpl. lra. }
    rewrite <- Hlen in Hg.
    pose proof (join_alg_row_count avranks cd _ Hpos Hg) as Hc.
    simpl in Hc. lia.
Qed.

(** X16.  For a well-formed matrix of 1 to 256 algorithms on at least
    one dataset, a supported [alpha], a table that answers and enough
    names, everything up to the grouper succeeds, and the call ends as
    the grouper decides: with its exception if it raises, with
    [IndexError] if it returns a single clique, and normally if it
    returns two cliques or more. *)
Theorem CDplot_outcome (data : ndarray2) (alpha : Q)
  (alg_names : option (list string)) (cd : Q) :
  wf_array data ->
  (1 <= length (arr_rows data) <= 256)%nat -> (1 <= n_cols data)%nat ->
  supported_alpha alpha = true ->
  NemenyiCD get_tukeyQcrit np_sqrt alpha
    (Z.of_nat (length (arr_rows data))) (Z.of_nat (n_cols data)) = Ok cd ->
  enough_names alg_names (length (arr_rows data)) ->
  exists avranks,
    sorted_average_ranks data = Ok avranks /\
    snd (CDplot get_tukeyQcrit np_sqrt (Nd2 data) alpha alg_names) =
    outcome (_join_alg avranks (length (arr_rows data)) cd).
Proof. apply CDplot_outcome_aux. Qed.

End Outcome.

Section Endings.

Variable get_tukeyQcrit : Z -> Z -> Q -> result Q.
Variable np_sqrt : Q -> Q.

Lemma plot_bind_eq {A B : Type} (m : plot A) (a : A) (k : A -> plot B) :
  snd m = Ok a -> plot_bind m k = (fst m ++ fst (k a), snd (k a)).
Proof. intros H. unfold plot_bind. now rewrite H. Qed.

Lemma plot_bind_lift_err {A B : Type} (e : error) (k : A -> plot B) :
  plot_bind (lift (Err e)) k = ([], Err e).
Proof. reflexivity. Qed.

(** Up to the grouper every step succeeds, and the figure, the axis, the
    stems of both sides and the critical-difference rule are drawn. *)
Lemma CDplot_drawn_aux (data : ndarray2) (alpha : Q)
  (alg_names : option (list string)) (cd : Q) :
  wf_array data ->
  (1 <= length (arr_rows data) <= 256)%nat -> (1 <= n_cols data)%nat ->
  supported_alpha alpha = true ->
  NemenyiCD get_tukeyQcrit np_sqrt alpha
    (Z.of_nat (length (arr_rows data))) (Z.of_nat (n_cols data)) = Ok cd ->
  enough_names alg_names (length (arr_rows data)) ->
  exists R avranks highest lowest,
    ranks data = Ok R /\
    sorted_average_ranks data = Ok avranks /\
    highest_rank avranks = Ok highest /\
    lowest_rank avranks = Ok lowest /\
    let k := length (arr_rows data) in
    let spoint := Z.to_nat (split_point k) in
    let names := model_names alg_names k in
    let indices := sort_indices (np_mean_rows R) in
    let rest :=
      nonsig <~ lift (_join_alg avranks k cd) ;;
      draw_cliques highest lowest nonsig in
    CDplot get_tukeyQcrit np_sqrt (Nd2 data) alpha alg_names =
    (Figure 6
       ((375 # 1000) * (inject_Z (astype_uint8 (Qceiling (of_nat k / 2))) + 1))
     :: fst (draw_axis highest lowest)
     ++ fst (draw_left highest lowest spoint (firstn spoint avranks)
               names indices)
     ++ fst (draw_right highest lowest k spoint (skipn spoint avranks)
               names indices)
     ++ fst (draw_cd highest lowest cd)
     ++ fst rest,
     snd rest).
Proof.
  intros Hwf Hk Hn Halpha Hcd Hnames.
  destruct (ranks_cells data Hwf) as (R & HR & Hsh & _).
  destruct (sorted_average_ranks_bounds data Hwf Hn)
    as (avranks & Hav & Hlen & Hb).
  assert (Hne : avranks <> [])
    by (intros E; rewrite E in Hlen; simpl in Hlen; lia).
  destruct (np_max_in (fun _ => True) avranks Hne) as (hi & Hhi & _).
  { apply Forall_forall. auto. }
  destruct (np_min_in (fun _ => True) avranks Hne) as (lo & Hlo & _).
  { apply Forall_forall. auto. }
  exists R, avranks, (astype_uint8 (Qceiling hi)), (astype_uint8 (Qfloor lo)).
  split; [ exact HR | ]. split; [ exact Hav | ].
  split; [ unfold highest_rank; now rewrite Hhi | ].
  split; [ unfold lowest_rank; now rewrite Hlo | ].
  unfold sorted_average_ranks in Hav. rewrite HR in Hav. cbn [bind] in Hav.
  cbv zeta.
  unfold CDplot. rewrite Halpha. cbn [negb shape].
  rewrite Hcd, plot_bind_lift_ok, HR, plot_bind_lift_ok.
  rewrite Hav, plot_bind_lift_ok.
  fold (model_names alg_names (length (arr_rows data))).
  set (k := length (arr_rows data)) in *.
  set (indices := sort_indices (np_mean_rows R)) in *.
  set (names := model_names alg_names k).
  assert (Hilen : length indices = k).
  { unfold indices. rewrite sort_indices_length, np_mean_rows_length.
    now destruct Hsh. }
  assert (Hirange : Forall (fun i => (i < k)%nat) indices).
  { pose proof (sort_indices_range (np_mean_rows R)) as Hr.
    rewrite np_mean_rows_length in Hr. destruct Hsh as [Hl _].
    now rewrite Hl in Hr. }
  assert (Hnlen : (k <= length names)%nat).
  { unfold names, model_names. destruct alg_names as [l | ]; simpl in Hnames.
    - now rewrite length_map.
    - now rewrite length_map, length_seq. }
  assert (Hnrange : Forall (fun i => (i < length names)%nat) indices).
  { eapply Forall_impl; [ | exact Hirange ]. intros i Hi. simpl in *. lia. }
  unfold split_algorithms, highest_rank, lowest_rank.
  rewrite Hhi, Hlo. cbn [bind]. rewrite !plot_bind_lift_ok.
  assert (Hsp : (Z.to_nat (split_point k) <= k)%nat).
  { destruct (Nat.eq_dec k 1) as [-> | Hk1]; [ vm_compute; lia | ].
    pose proof (split_point_bounds k ltac:(lia)). lia. }
  rewrite (plot_bind_eq _ tt) by reflexivity.
  rewrite (plot_bind_eq _ tt) by apply draw_axis_ok.
  rewrite (plot_bind_eq _ tt).
  2:{ apply draw_left_ok; [ | exact Hnrange | lia ].
      rewrite length_firstn. lia. }
  rewrite (plot_bind_eq _ tt).
  2:{ apply draw_right_ok; [ | exact Hnrange | lia | exact Hsp ].
      rewrite length_skipn. lia. }
  rewrite (plot_bind_eq _ tt) by reflexivity.
  reflexivity.
Qed.

(** X17.  When all algorithms have the same average rank (a single
    algorithm is such a case), the call draws the figure, the axis, the
    stems and names of the left and of the right models and the
    critical-difference rule, in this order and nothing after them, and
    then raises [IndexError]: no pair is eligible and the grouper reads
    the first row of an empty array. *)
Theorem CDplot_equal_ranks (data : ndarray2) (alpha : Q)
  (alg_names : option (list string)) (cd c : Q) :
  wf_array data ->
  (1 <= length (arr_rows data) <= 256)%nat -> (1 <= n_cols data)%nat ->
  supported_alpha alpha = true ->
  NemenyiCD get_tukeyQcrit np_sqrt alpha
    (Z.of_nat (length (arr_rows data))) (Z.of_nat (n_cols data)) = Ok cd ->
  enough_names alg_names (length (arr_rows data)) ->
  (forall R, ranks data = Ok R -> Forall (fun a => a == c) (np_mean_rows R)) ->
  exists R avranks highest lowest,
    ranks data = Ok R /\
    sorted_average_ranks data = Ok avranks /\
    highest_rank avranks = Ok highest /\
    lowest_rank avranks = Ok lowest /\
    let k := length (arr_rows data) in
    let spoint := Z.to_nat (split_point k) in
    let names := model_names alg_names k in
    let indices := sort_indices (np_mean_rows R) in
    CDplot get_tukeyQcrit np_sqrt (Nd2 data) alpha alg_names =
    (Figure 6
       ((375 # 1000) * (inject_Z (astype_uint8 (Qceiling (of_nat k / 2))) + 1))
     :: fst (draw_axis highest lowest)
     ++ fst (draw_left highest lowest spoint (firstn spoint avranks)
               names indices)
     ++ fst (draw_right highest lowest k spoint (skipn spoint avranks)
               names indices)
     ++ [Hlines (stop + (2 # 10)) (Finite sleft)
           (x_position highest lowest (cd * lline));
         Text (x_position highest lowest ((1 # 2) * (cd * lline)))
           (stop + (21 # 100)) (CDLabel cd)],
     Err IndexError).
Proof.
  intros Hwf Hk Hn Halpha Hcd Hnames Hall.
  destruct (CDplot_drawn_aux data alpha alg_names cd
              Hwf Hk Hn Halpha Hcd Hnames)
    as (R & avranks & highest & lowest & HR & Hav & Hhi & Hlo & Hrun).
  exists R, avranks, highest, lowest.
  split; [ exact HR | ]. split; [ exact Hav | ].
  split; [ exact Hhi | ]. split; [ exact Hlo | ].
  cbv zeta in *. rewrite Hrun. clear Hrun.
  destruct (sorted_average_ranks_bounds data Hwf Hn)
    as (avranks' & Hav' & Hlen & Hb).
  rewrite Hav in Hav'. inversion Hav'; subst avranks'. clear Hav'.
  specialize (Hall R HR).
  unfold sorted_average_ranks in Hav. rewrite HR in Hav. cbn [bind] in Hav.
  rewrite (take_in_range _ 0 _ (sort_indices_range _)) in Hav.
  inversion Hav as [Hav'].
  assert (Heq : Forall (fun a => a == c) avranks).
  { rewrite <- Hav'. apply Forall_take;
      [ exact Hall | apply sort_indices_range ]. }
  assert (Hjoin : _join_alg avranks (length (arr_rows data)) cd =
                  Err IndexError).
  { rewrite <- Hlen. apply join_alg_empty.
    - eapply Forall_impl; [ | exact Hb ]. intros a [Ha _]. simpl. lra.
    - apply candidates_nil. intros i j Hi Hj.
      destruct (eligible avranks cd i j) eqn:He; [ | reflexivity ].
      apply eligible_iff in He. destruct He as [He _].
      rewrite Forall_forall in Heq.
      rewrite (Heq (nth i avranks 0)), (Heq (nth j avranks 0)) in He
        by (now apply nth_In).
      exfalso. revert He. apply Qle_not_lt. lra. }
  rewrite Hav', Hjoin, plot_bind_lift_err. reflexivity.
Qed.

(** X18.  When the table raises, [CDplot] passes the exception on
    unchanged, and nothing has been drawn. *)
Theorem CDplot_propagates (data : ndarray2) (alpha : Q)
  (alg_names : option (list string)) (e : error) :
  supported_alpha alpha = true ->
  get_tukeyQcrit (Z.of_nat (length (arr_rows data)))
    (Z.of_nat (length (arr_rows data)) * (Z.of_nat (n_cols data) - 1))%Z
    alpha = Err e ->
  CDplot get_tukeyQcrit np_sqrt (Nd2 data) alpha alg_names = ([], Err e).
Proof.
  intros Halpha Hq. unfold CDplot. rewrite Halpha. cbn [negb shape].
  unfold NemenyiCD. rewrite Hq. reflexivity.
Qed.

(** X22.  On a matrix without columns (shape [(k, 0)]) the call raises
    and draws nothing, whatever the table does: the table is asked for
    [k] groups and [-k] degrees of freedom and its exception is passed
    on; should it answer, the division by [6.0 * num_dataset] raises
    [ZeroDivisionError]. *)
Theorem CDplot_no_columns (rows : matrix) (alpha : Q)
  (alg_names : option (list string)) :
  supported_alpha alpha = true ->
  CDplot get_tukeyQcrit np_sqrt (Nd2 (mk_ndarray2 rows 0)) alpha alg_names =
  ([], Err match get_tukeyQcrit (Z.of_nat (length rows))
                   (- Z.of_nat (length rows))%Z alpha with
           | Err e => e
           | Ok _ => ZeroDivisionError
           end).
Proof.
  intros Halpha. unfold CDplot. rewrite Halpha.
  cbn [negb shape arr_rows n_cols]. unfold NemenyiCD.
  replace (Z.of_nat (length rows) * (Z.of_nat 0 - 1))%Z
    with (- Z.of_nat (length rows))%Z by (cbn [Z.of_nat]; lia).
  destruct (get_tukeyQcrit _ _ alpha) as [q | e]; reflexivity.
Qed.

(** X19.  On a matrix without rows (shape [(0, n)]) the call raises and
    draws nothing, whatever the table does: the table is asked for zero
    groups and zero degrees of freedom and its exception is passed on;
    should it answer, the division raises [ZeroDivisionError] when there
    is no column either, and otherwise [np.max] of the empty average
    ranks raises [ValueError]. *)
Theorem CDplot_no_rows (n : nat) (alpha : Q)
  (alg_names : option (list string)) :
  supported_alpha alpha = true ->
  CDplot get_tukeyQcrit np_sqrt (Nd2 (mk_ndarray2 [] n)) alpha alg_names =
  ([], Err match get_tukeyQcrit 0 0 alpha with
           | Err e => e
           | Ok _ => if (n =? 0)%nat then ZeroDivisionError else ValueError
           end).
Proof.
  intros Halpha. unfold CDplot. rewrite Halpha.
  cbn [negb shape arr_rows n_cols length]. unfold NemenyiCD.
  cbn [Z.of_nat Z.mul].
  destruct (get_tukeyQcrit 0 0 alpha) as [q | e]; [ | reflexivity ].
  cbn [bind].
  destruct (Nat.eqb_spec n 0) as [-> | Hn]; [ reflexivity | ].
  rewrite py_div_nonzero by (apply six_datasets_nonzero; lia).
  cbn [bind]. rewrite plot_bind_lift_ok.
  assert (HR : ranks (mk_ndarray2 [] n) = Ok []).
  { unfold ranks. cbn [shape arr_rows n_cols length].
    induction (seq 0 n) as [ | j l IH ]; [ reflexivity | ].
    cbn [fold_left]. exact IH. }
  rewrite HR, plot_bind_lift_ok. reflexivity.
Qed.

End Endings.

(** ** The labels of the axis *)

Lemma text_labels_app (l l' : list artist) :
  text_labels (l ++ l') = text_labels l ++ text_labels l'.
Proof.
  induction l as [ | a l IH ]; simpl; [ reflexivity | ].
  destruct a; simpl; now rewrite IH.
Qed.

Lemma for_each_tick_labels (lowest : Z) (l : list nat)
  (body : nat -> plot unit) :
  (forall xi, snd (body xi) = Ok tt) ->
  (forall xi, text_labels (fst (body xi)) = [TickLabel (lowest + Z.of_nat xi)]) ->
  text_labels (fst (for_each l body)) =
  map (fun xi => TickLabel (lowest + Z.of_nat xi)) l.
Proof.
  intros Hok Hlab. induction l as [ | xi l IH ]; simpl; [ reflexivity | ].
  rewrite (fst_plot_bind_ok _ tt) by apply Hok.
  now rewrite text_labels_app, Hlab, IH.
Qed.

(** X20.  For axis bounds [0 <= lowest <= highest < 256], the axis
    carries one label for each integer from [lowest] to [highest], in
    ascending order. *)
Theorem axis_tick_labels (highest lowest : Z) :
  (0 <= lowest)%Z -> (lowest <= highest)%Z -> (highest < 256)%Z ->
  text_labels (fst (draw_axis highest lowest)) =
  map (fun i => TickLabel (lowest + Z.of_nat i))
      (seq 0 (Z.to_nat (highest - lowest) + 1)).
Proof.
  intros Hl Hlh Hh. unfold draw_axis.
  rewrite (fst_plot_bind_ok _ tt) by reflexivity.
  rewrite text_labels_app. cbn [draw fst text_labels app].
  rewrite astype_uint8_small by lia.
  replace (Z.to_nat (highest - lowest + 1))
    with (Z.to_nat (highest - lowest) + 1)%nat by lia.
  apply for_each_tick_labels.
  - intros xi.
    rewrite (snd_plot_bind_eq _ tt) by reflexivity.
    rewrite (snd_plot_bind_eq _ tt) by reflexivity.
    now destruct (Z.of_nat xi <? highest - lowest)%Z.
  - intros xi.
    rewrite (fst_plot_bind_ok _ tt) by reflexivity.
    rewrite (fst_plot_bind_ok _ tt) by reflexivity.
    now destruct (Z.of_nat xi <? highest - lowest)%Z.
Qed.

(** ** The grouper inside [CDplot] *)

(** X21.  With 1 to 256 algorithms on at least one dataset, the sequence
    that [CDplot] hands to its grouper is ascending and positive, so that
    whatever the critical difference, the cliques returned are the
    candidates of the anchors merged by their upper ends. *)
Theorem CDplot_cliques (data : ndarray2) :
  wf_array data ->
  (1 <= length (arr_rows data) <= 256)%nat -> (1 <= n_cols data)%nat ->
  exists avranks,
    sorted_average_ranks data = Ok avranks /\
    forall cd g,
      _join_alg avranks (length (arr_rows data)) cd = Ok g ->
      group_rows g = merge_cliques (candidates avranks cd).
Proof.
  intros Hwf Hk Hn.
  destruct (sorted_average_ranks_bounds data Hwf Hn)
    as (avranks & Hav & Hlen & Hb).
  destruct (sorted_average_ranks_sorted data Hwf (proj2 Hk))
    as (R & avranks' & _ & Hav' & Hs & _).
  rewrite Hav in Hav'. inversion Hav'; subst avranks'. clear Hav'.
  exists avranks. split; [ exact Hav | ].
  intros cd g Hg. rewrite <- Hlen in Hg.
  assert (Hpos : Forall (fun r => 0 <= r) avranks).
  { eapply Forall_impl; [ | exact Hb ]. intros a [Ha _]. simpl. lra. }
  destruct (join_alg_rows avranks cd g Hpos Hg) as (p & rest & Hc & ->).
  pose proof (candidates_sorted avranks cd Hs) as Hsorted.
  rewrite Hc in *. simpl. f_equal.
  apply chain_merge; [ exact Hsorted | reflexivity ].
Qed.

(** ** Further instances on concrete inputs *)

Lemma ladder_example_wf : wf_array ladder_example.
Proof. split; [ reflexivity | repeat constructor ]. Qed.

Lemma ranks_within_bounds_witness :
  exists R, ranks tie_example = Ok R /\ 1 <= cell R 2 0 /\ cell R 2 0 <= 4.
Proof.
  destruct (ranks_within_bounds tie_example tie_example_wf) as (R & HR & Hb).
  exists R. split; [ exact HR | ].
  apply (Hb 2%nat 0%nat); simpl; lia.
Defined.

Lemma ranks_antitone_witness :
  exists R, ranks tie_example = Ok R /\ cell R 3 0 < cell R 2 0.
Proof.
  destruct (ranks_antitone tie_example tie_example_wf) as (R & HR & Hlt).
  exists R. split; [ exact HR | ].
  apply Hlt; simpl; try lia. reflexivity.
Defined.

Lemma ranks_column_sum_witness :
  exists R, ranks tie_example = Ok R /\ Qsum (column R 1) == 4 * (4 + 1) / 2.
Proof.
  destruct (ranks_column_sum tie_example tie_example_wf) as (R & HR & Hs).
  exists R. split; [ exact HR | ].
  apply (Hs 1%nat). simpl. lia.
Defined.

Lemma dominant_average_rank_witness :
  exists R, ranks ladder_example = Ok R /\
            (forall j, (j < 6)%nat -> cell R 0 j == 1) /\
            nth 0 (np_mean_rows R) 0 == 1.
Proof.
  apply (dominant_average_rank ladder_example 0).
  - exact ladder_example_wf.
  - simpl. lia.
  - simpl. lia.
  - intros i' j Hi Hj Hne. simpl in Hi, Hj.
    destruct i' as [ | [ | [ | [ | [ | [ | i' ] ] ] ] ] ]; try lia;
      destruct j as [ | [ | [ | [ | [ | [ | j ] ] ] ] ] ]; try lia;
      reflexivity.
Defined.

Lemma average_ranks_ascending_witness :
  exists R avranks,
    ranks tie_example = Ok R /\
    sorted_average_ranks tie_example = Ok avranks /\
    StronglySorted Qle avranks /\
    Permutation avranks (np_mean_rows R).
Proof.
  apply (average_ranks_ascending tie_example).
  - exact tie_example_wf.
  - simpl. lia.
Defined.

Lemma join_alg_spans_witness :
  Forall (fun c => 0 < snd c - fst c /\ snd c - fst c < 11 # 10 /\
                   In (fst c) [1; 15 # 10; 2; 3; 32 # 10; 5] /\
                   In (snd c) [1; 15 # 10; 2; 3; 32 # 10; 5])
         [(1, 2); (2, 3); (3, 32 # 10)].
Proof.
  apply (join_alg_spans [1; 15 # 10; 2; 3; 32 # 10; 5] (11 # 10)
           (Group2 [(1, 2); (2, 3); (3, 32 # 10)])).
  - repeat constructor; discriminate.
  - reflexivity.
Defined.

Lemma join_alg_increasing_witness :
  StronglySorted high_lt [(1, 2); (2, 3); (3, 32 # 10)].
Proof.
  apply (join_alg_increasing [1; 15 # 10; 2; 3; 32 # 10; 5] (11 # 10)
           (Group2 [(1, 2); (2, 3); (3, 32 # 10)])).
  - repeat constructor; discriminate.
  - repeat constructor; discriminate.
  - reflexivity.
Defined.

Lemma join_alg_raises_without_pairs_witness :
  _join_alg [1; 1; 2; 3] 4 (1 # 2) = Err IndexError.
Proof.
  apply (join_alg_raises_without_pairs [1; 1; 2; 3] (1 # 2)).
  - repeat constructor; discriminate.
  - intros i j Hi Hj [H1 H2]. simpl in Hi, Hj.
    destruct i as [ | [ | [ | [ | i ] ] ] ]; try lia;
      destruct j as [ | [ | [ | [ | j ] ] ] ]; try lia;
      vm_compute in H1, H2; discriminate.
Defined.

Lemma join_alg_shape_witness :
  (exists rows, Group1 (12 # 10, 13 # 10) = Group2 rows) <->
  (2 <= length (group_rows (Group1 (12 # 10, 13 # 10))))%nat.
Proof.
  apply (join_alg_shape [12 # 10; 13 # 10] 2 (1 # 2)). reflexivity.
Defined.

Lemma CDplot_rejects_dimension_witness :
  CDplot sample_tukey sample_sqrt (Nd1 [1; 2; 3]) (5 # 100) None =
  ([], Err (PyException ndim_message)).
Proof.
  apply (CDplot_rejects_dimension sample_tukey sample_sqrt).
  - reflexivity.
  - simpl. lia.
Defined.

Lemma CDplot_completes_witness :
  supported_alpha (5 # 100) = true /\
  exists cd avranks rows,
    NemenyiCD sample_tukey sample_sqrt (5 # 100) 6 6 = Ok cd /\
    sorted_average_ranks ladder_example = Ok avranks /\
    _join_alg avranks 6 cd = Ok (Group2 rows) /\
    (2 <= length rows)%nat.
Proof.
  apply (CDplot_completes sample_tukey sample_sqrt ladder_example
           (5 # 100) None).
  vm_compute. reflexivity.
Defined.

Lemma split_algorithms_even_witness :
  let '(leftalg, rightalg) := split_algorithms 6 [1; 2; 3; 4; 5; 6] in
  length leftalg = 3%nat /\ length rightalg = 3%nat.
Proof.
  apply (split_algorithms_even 6 [1; 2; 3; 4; 5; 6]).
  - reflexivity.
  - reflexivity.
  - lia.
Defined.

Lemma stems_on_axis_witness :
  exists avranks highest lowest,
    sorted_average_ranks tie_example = Ok avranks /\
    highest_rank avranks = Ok highest /\
    lowest_rank avranks = Ok lowest /\
    ((lowest < highest)%Z ->
     Forall (fun a =>
               exists x,
                 x_position highest lowest (lline * (a - inject_Z lowest)) =
                   Finite x /\
                 sleft <= x /\ x <= sright) avranks).
Proof.
  apply (stems_on_axis tie_example).
  - exact tie_example_wf.
  - simpl. lia.
  - simpl. lia.
Defined.


Lemma average_ranks_sum_witness :
  exists R, ranks tie_example = Ok R /\
            Qsum (np_mean_rows R) == 4 * (4 + 1) / 2.
Proof.
  apply (average_ranks_sum tie_example).
  - exact tie_example_wf.
  - simpl. lia.
Defined.

Lemma CDplot_outcome_witness :
  exists avranks,
    sorted_average_ranks tie_example = Ok avranks /\
    snd (CDplot sample_tukey sample_sqrt (Nd2 tie_example) (5 # 100) None) =
    outcome (_join_alg avranks 4
               ((4339 # 1000) / sample_sqrt 2 *
                sample_sqrt (inject_Z (4 * (4 + 1)) / (6 * inject_Z 2)))).
Proof.
  apply (CDplot_outcome sample_tukey sample_sqrt tie_example (5 # 100) None).
  - exact tie_example_wf.
  - simpl. lia.
  - simpl. lia.
  - reflexivity.
  - reflexivity.
  - exact I.
Defined.

Lemma CDplot_equal_ranks_witness :
  exists R avranks highest lowest,
    ranks scenario_A = Ok R /\
    sorted_average_ranks scenario_A = Ok avranks /\
    highest_rank avranks = Ok highest /\
    lowest_rank avranks = Ok lowest /\
    let k := 3%nat in
    let spoint := Z.to_nat (split_point k) in
    let names := model_names None k in
    let indices := sort_indices (np_mean_rows R) in
    CDplot sample_tukey sample_sqrt (Nd2 scenario_A) (5 # 100) None =
    (Figure 6
       ((375 # 1000) * (inject_Z (astype_uint8 (Qceiling (of_nat k / 2))) + 1))
     :: fst (draw_axis highest lowest)
     ++ fst (draw_left highest lowest spoint (firstn spoint avranks)
               names indices)
     ++ fst (draw_right highest lowest k spoint (skipn spoint avranks)
               names indices)
     ++ [Hlines (stop + (2 # 10)) (Finite sleft)
           (x_position highest lowest
              ((4339 # 1000) / sample_sqrt 2 *
               sample_sqrt (inject_Z (3 * (3 + 1)) / (6 * inject_Z 3)) *
               lline));
         Text (x_position highest lowest
                 ((1 # 2) *
                  ((4339 # 1000) / sample_sqrt 2 *
                   sample_sqrt (inject_Z (3 * (3 + 1)) / (6 * inject_Z 3)) *
                   lline)))
           (stop + (21 # 100))
           (CDLabel ((4339 # 1000) / sample_sqrt 2 *
                     sample_sqrt (inject_Z (3 * (3 + 1)) / (6 * inject_Z 3))))],
     Err IndexError).
Proof.
  apply (CDplot_equal_ranks sample_tukey sample_sqrt scenario_A
           (5 # 100) None
           ((4339 # 1000) / sample_sqrt 2 *
            sample_sqrt (inject_Z (3 * (3 + 1)) / (6 * inject_Z 3))) 2).
  - exact scenario_A_wf.
  - simpl. lia.
  - simpl. lia.
  - reflexivity.
  - reflexivity.
  - exact I.
  - intros R HR. vm_compute in HR. inversion HR; subst.
    repeat constructor.
Defined.

Lemma CDplot_propagates_witness :
  CDplot failing_tukey sample_sqrt (Nd2 scenario_A) (5 # 100) None =
  ([], Err LookupFailure).
Proof.
  apply (CDplot_propagates failing_tukey sample_sqrt).
  - reflexivity.
  - reflexivity.
Defined.

Lemma CDplot_no_columns_witness :
  CDplot two_level_tukey sample_sqrt (Nd2 (mk_ndarray2 [[]; []] 0)) (5 # 100)
    None = ([], Err LookupFailure).
Proof.
  apply (CDplot_no_columns two_level_tukey sample_sqrt [[]; []] (5 # 100)
           None).
  reflexivity.
Defined.

Lemma CDplot_no_rows_witness :
  CDplot two_level_tukey sample_sqrt (Nd2 (mk_ndarray2 [] 3)) (5 # 100) None =
  ([], Err LookupFailure).
Proof.
  apply (CDplot_no_rows two_level_tukey sample_sqrt 3 (5 # 100) None).
  reflexivity.
Defined.

Lemma axis_tick_labels_witness :
  text_labels (fst (draw_axis 4 1)) =
  [TickLabel 1; TickLabel 2; TickLabel 3; TickLabel 4].
Proof. apply (axis_tick_labels 4 1); lia. Defined.

Lemma CDplot_cliques_witness :
  exists avranks,
    sorted_average_ranks ladder_example = Ok avranks /\
    forall cd g,
      _join_alg avranks 6 cd = Ok g ->
      group_rows g = merge_cliques (candidates avranks cd).
Proof.
  apply (CDplot_cliques ladder_example).
  - exact ladder_example_wf.
  - simpl. lia.
  - simpl. lia.
Defined.
